(** * Forward propagation of a proof-of-space plot: [pkg/pos]

    A shallow embedding of [pkg/pos/encrypt.go] (the keyed block hash [At])
    and of [pkg/pos/plot.go] (header writer, first-table generator, table
    builder and the plot pipeline), with the properties of the design
    document checked against it.

    Conventions.
    - Go's [int] and [uint64] are integers of [Z] with the 64-bit wrap-around
      written out ([to_int], [to_u64]).
    - A byte slice is a [list byte]; a [*big.Int] is a [Z].
    - A Go [error] is a value of [error]; [nil] is [None].
    - The packages [serialize], [parameters], [utils], [sort] and the [afero]
      file system are not part of this package: their functions are
      parameters, the variables of section [At] and the fields of
      [Plot.World].
    - [fmt.Println], [fmt.Printf] and [time.Now] are left out. *)

From Stdlib Require Import ZArith String List Bool Lia Sorted.
From Stdlib.Strings Require Import Byte.
Import ListNotations.
Local Open Scope Z_scope.

(** ** Machine integers *)

Definition to_u64 (z : Z) : Z := z mod 2 ^ 64.
Definition to_int (z : Z) : Z := (z + 2 ^ 63) mod 2 ^ 64 - 2 ^ 63.

Definition int_add (a b : Z) : Z := to_int (a + b).
Definition int_mul (a b : Z) : Z := to_int (a * b).
Definition u64_add (a b : Z) : Z := to_u64 (a + b).

(** [byte(v)]: the low eight bits. *)
Definition byte_of_Z (z : Z) : byte :=
  match Byte.of_N (Z.to_N (z mod 256)) with
  | Some b => b
  | None => x00
  end.

Definition Z_of_byte (b : byte) : Z := Z.of_N (Byte.to_N b).

(** ** Errors *)

(** [serialize.EOTErr] and [io.EOF] are the two sentinel values the table
    builder compares against; every other error is a message. *)
Inductive error : Type :=
| EOTErr
| EOF
| Errorf (msg : string).

Definition is_EOTErr (e : error) : bool :=
  match e with EOTErr => true | _ => false end.
Definition is_EOF (e : error) : bool :=
  match e with EOF => true | _ => false end.

(** [%v] of an error inside [fmt.Errorf]. *)
Definition error_text (e : error) : string :=
  match e with
  | EOTErr => "EOT"
  | EOF => "EOF"
  | Errorf m => m
  end.

(** * encrypt.go *)

Module Encrypt.

(** ** [math/big] *)

(** [new(big.Int).SetBytes(buf)]: [buf] read as a big-endian unsigned
    integer. *)
Definition SetBytes (buf : list byte) : Z :=
  fold_left (fun acc b => acc * 256 + Z_of_byte b) buf 0.

Fixpoint be_digits (fuel : nat) (z : Z) (acc : list byte) : list byte :=
  match fuel with
  | O => acc
  | S fuel' =>
      if z =? 0 then acc
      else be_digits fuel' (z / 256) (byte_of_Z (z mod 256) :: acc)
  end.

(** [x.Bytes()]: the absolute value of [x] as a big-endian byte slice
    without leading zeros. *)
Definition Bytes (x : Z) : list byte :=
  let a := Z.abs x in
  be_digits (S (Z.to_nat (Z.log2 a))) a [].

(** [x.Uint64()]: the low 64 bits of the absolute value. *)
Definition Uint64 (x : Z) : Z := to_u64 (Z.abs x).

(** ** [crypto/cipher.Block] *)

(** [Encrypt c dst src] is what the implementation stores from [dst[0]] on,
    or [None] when it panics ([crypto/aes] panics on a [dst] or [src]
    shorter than a block). *)
Record Block : Type := {
  BlockSize : Z;
  Encrypt : list byte -> list byte -> option (list byte)
}.

(** A callee gets the slice header by value: it can overwrite the
    [len(dst)] elements of the caller's slice and nothing more. *)
Definition store (dst out : list byte) : list byte :=
  firstn (length dst) out ++ skipn (length out) dst.

(** ** Calls to the cipher, recorded *)

Record EncryptCall : Type := {
  call_dst : list byte;
  call_src : list byte
}.

Inductive result (A : Type) : Type :=
| Ok (a : A)
| Panicked.
Arguments Ok {A} a.
Arguments Panicked {A}.

Definition M (A : Type) : Type := (list EncryptCall * result A)%type.

Definition ret {A} (a : A) : M A := ([], Ok a).

Definition bind {A B} (m : M A) (f : A -> M B) : M B :=
  match m with
  | (l, Ok a) => let (l', r) := f a in (l ++ l', r)
  | (l, Panicked) => (l, Panicked)
  end.

#[local] Notation "x <- m ;; f" := (bind m (fun x => f))
  (at level 100, m at next level, right associativity).

(** [c.Encrypt(dst, src)] as the caller sees it: the contents of [dst]
    after the call. *)
Definition encrypt (c : Block) (dst src : list byte) : M (list byte) :=
  ([{| call_dst := dst; call_src := src |}],
   match Encrypt c dst src with
   | Some out => Ok (store dst out)
   | None => Panicked
   end).

Definition calls {A} (m : M A) : list EncryptCall := fst m.
Definition nil_dst (call : EncryptCall) : Prop := call_dst call = [].
Definition outcome {A} (m : M A) : result A := snd m.

Section At.

(** [utils.ConcatBig(k, x, y)], [utils.Trunc(x, a, b, k)] and
    [CollaSize(t)] live outside this file. *)
Variable ConcatBig : Z -> Z -> Z -> Z.
Variable Trunc : Z -> Z -> Z -> Z -> Z.
Variable CollaSize : Z -> error + Z.

Definition in_range (lo hi size : Z) : bool := (lo <=? size) && (size <=? hi).

(** [size := 2 * int(k) * *collaSize] *)
Definition combined_size (k collaSize : Z) : Z :=
  int_mul (int_mul 2 (to_int k)) collaSize.

(** The [switch] of [At]; the result is [cipherText] after it.  No [case]
    matches a [size] outside [0, 512]: the slice stays as declared. *)
Definition main_logic (x y k : Z) (c : Block) (size : Z) : M (list byte) :=
  let param := Z.shiftl 1 128 in
  let xHigh := x / param in
  let xLow := x mod param in
  let yHigh := y / param in
  let yLow := y mod param in
  let cipherText : list byte := [] in
  if in_range 0 128 size then
    encrypt c cipherText (Bytes (ConcatBig k x y))
  else if in_range 129 256 size then
    cipherText <- encrypt c cipherText (Bytes x) ;;
    let tmp := SetBytes cipherText in
    encrypt c cipherText (Bytes (Z.lxor tmp y))
  else if in_range 257 384 size then
    let cipherConcat : list byte := [] in
    cipherConcat <- encrypt c cipherConcat (Bytes (ConcatBig k xLow yLow)) ;;
    let ccBig := SetBytes cipherConcat in
    let cipherYHigh : list byte := [] in
    cipherYHigh <- encrypt c cipherYHigh (Bytes yHigh) ;;
    let cyBig := SetBytes cipherYHigh in
    let cipherXHigh : list byte := [] in
    cipherXHigh <- encrypt c cipherXHigh (Bytes xHigh) ;;
    let cxBig := SetBytes cipherXHigh in
    let ccBig := Z.lxor (Z.lxor ccBig cyBig) cxBig in
    encrypt c cipherText (Bytes ccBig)
  else if in_range 385 512 size then
    let tmp : list byte := [] in
    tmp <- encrypt c tmp (Bytes xHigh) ;;
    let tmpBig := SetBytes tmp in
    tmp <- encrypt c tmp (Bytes (Z.lxor tmpBig xLow)) ;;
    let tmpBig := SetBytes tmp in
    let cipherYHigh : list byte := [] in
    cipherYHigh <- encrypt c cipherYHigh (Bytes yHigh) ;;
    let cyBig := SetBytes cipherYHigh in
    encrypt c cipherText (Bytes (Z.lxor (Z.lxor tmpBig cyBig) yLow))
  else
    ret cipherText.

(** [At(x, y, k, t, c)]: the pair [(r, err)] it returns. *)
Definition At (x y k : Z) (t : Z) (c : Block) : M (Z * option error) :=
  match CollaSize t with
  | inl err => ret (0, Some err)
  | inr collaSize =>
      let size := combined_size k collaSize in
      cipherText <- main_logic x y k c size ;;
      let res := SetBytes cipherText in
      let r := Uint64 (Trunc res 0 (u64_add k 5) k) in
      ret (r, None)
  end.

(** What [At] returns when the cipher text is empty. *)
Definition hash_of_nothing (k : Z) : Z := Uint64 (Trunc 0 0 (u64_add k 5) k).

End At.

End Encrypt.

(** * plot.go *)

Module Plot.

(** ** Data *)

(** An [afero.File], named by the path it was created with. *)
Definition File : Type := string.

(** [serialize.Entry]: the hash value, the position in the table and
    whatever else the codec decodes. *)
Record Entry : Type := {
  Fx : Z;
  Index : Z;
  Rest : list Z
}.

Definition set_Index (e : Entry) (i : Z) : Entry :=
  {| Fx := Fx e; Index := i; Rest := Rest e |}.

(** An element of what [FindMatches] returns. *)
Record Match : Type := {
  Left : Z;
  LeftMetadata : Z;
  RightMetadata : Z
}.

(** ** The file system and the collaborators, as a history of calls *)

(** Every call that touches the file system, with what it returned.
    [EnterWriteTable] marks the start of a [WriteTable] call. *)
Inductive Event : Type :=
| Create (name : string) (err : option error)
| FileWrite (file : File) (buf : list byte) (n : Z) (err : option error)
| SerializeWrite (file : File) (offset : Z) (args : list (option Z))
    (n : Z) (err : option error)
| SerializeRead (file : File) (offset entryLen k : Z)
    (e : Entry) (n : Z) (err : option error)
| SortOnDisk (file : File) (spare : option File)
    (start stop availableMemory entryLen maxNumber k : Z) (err : option error)
| EnterWriteTable (t previousStart currentStart entryLen : Z).

Definition Hist : Type := list Event.

(** What lies outside [plot.go].  The state of the disk is a function of
    the calls made so far, so each operation on files answers from the
    history; the hashing collaborators are pure. *)
Record World : Type := {
  F1 : Type;
  FxT : Type;
  (* afero *)
  afero_Create : Hist -> string -> option error;
  afero_Write : Hist -> File -> list byte -> Z * option error;
  (* serialize *)
  serialize_EOT : list byte;
  serialize_Write : Hist -> File -> Z -> list (option Z) -> Z * option error;
  serialize_Read : Hist -> File -> Z -> Z -> Z -> Entry * Z * option error;
  (* sort *)
  sort_OnDisk :
    Hist -> File -> option File -> Z -> Z -> Z -> Z -> Z -> Z -> option error;
  (* parameters and the f functions *)
  parameters_BucketID : Z -> Z;
  NewF1 : Z -> list byte -> error + F1;
  F1_Calculate : F1 -> Z -> Z;
  NewFx : Z -> list byte -> error + FxT;
  Fx_Calculate : FxT -> Z -> Z -> Z -> Z -> error + Z;
  Collate : Z -> Z -> Z -> Z -> error + Z;
  FindMatches : list Entry -> list Entry -> list Match;
  (* float64 to integer conversion of a power of two that does not fit:
     [uint64(math.Pow(2, float64(k)))] for [k > 63] and
     [int(math.Pow(2, float64(k)))] for [k > 62], each as the platform
     has it *)
  float_overflow_u64 : Z -> Z;
  float_overflow_int : Z -> Z
}.

(** ** Computations over the history *)

Inductive res (A : Type) : Type :=
| Val (a : A)
| Panic (msg : string)
| OutOfFuel.
Arguments Val {A} a.
Arguments Panic {A} msg.
Arguments OutOfFuel {A}.

Definition M (A : Type) : Type := Hist -> res A * Hist.

Definition ret {A} (a : A) : M A := fun h => (Val a, h).

Definition bind {A B} (m : M A) (f : A -> M B) : M B :=
  fun h =>
    match m h with
    | (Val a, h') => f a h'
    | (Panic msg, h') => (Panic msg, h')
    | (OutOfFuel, h') => (OutOfFuel, h')
    end.

Definition panic {A} (msg : string) : M A := fun h => (Panic msg, h).
Definition out_of_fuel {A} : M A := fun h => (OutOfFuel, h).

#[local] Notation "x <- m ;; f" := (bind m (fun x => f))
  (at level 100, m at next level, right associativity).
#[local] Notation "' p <- m ;; f" := (bind m (fun x => match x with p => f end))
  (at level 100, p pattern, m at next level, right associativity).

(** [a / b] on [int]: truncated, and a run-time panic when [b] is zero. *)
Definition int_div (a b : Z) : M Z :=
  if b =? 0 then panic "integer divide by zero" else ret (to_int (Z.quot a b)).

Definition len (buf : list byte) : Z := Z.of_nat (length buf).

(** How one iteration of a loop ends. *)
Inductive flow (S R : Type) : Type :=
| Next (s : S)
| Break (s : S)
| Return (r : R).
Arguments Next {S R} s.
Arguments Break {S R} s.
Arguments Return {S R} r.

Section Pipeline.

Variable W : World.

(** *** Calls *)

Definition fs_Create (name : string) : M (File * option error) :=
  fun h =>
    let err := afero_Create W h name in
    (Val (name, err), h ++ [Create name err]).

Definition file_Write (file : File) (buf : list byte) : M (Z * option error) :=
  fun h =>
    let r := afero_Write W h file buf in
    (Val r, h ++ [FileWrite file buf (fst r) (snd r)]).

Definition codec_Write (file : File) (offset : Z) (args : list (option Z))
  : M (Z * option error) :=
  fun h =>
    let r := serialize_Write W h file offset args in
    (Val r, h ++ [SerializeWrite file offset args (fst r) (snd r)]).

Definition codec_Read (file : File) (offset entryLen k : Z)
  : M (Entry * Z * option error) :=
  fun h =>
    let r := serialize_Read W h file offset entryLen k in
    (Val r,
     h ++ [SerializeRead file offset entryLen k (fst (fst r)) (snd (fst r)) (snd r)]).

Definition disk_sort (file : File) (spare : option File)
    (start stop availableMemory entryLen maxNumber k : Z) : M (option error) :=
  fun h =>
    let err :=
      sort_OnDisk W h file spare start stop availableMemory entryLen maxNumber k in
    (Val err,
     h ++ [SortOnDisk file spare start stop availableMemory entryLen maxNumber k err]).

Definition mark (e : Event) : M unit := fun h => (Val tt, h ++ [e]).

(** [uint64(math.Pow(2, float64(k)))] and [int(math.Pow(2, float64(k)))]:
    exact while the power fits, zero for a negative [k] (the fraction is
    truncated). *)
Definition pow2_u64 (k : Z) : Z :=
  if k <=? 63 then 2 ^ k else float_overflow_u64 W k.
Definition pow2_int (k : Z) : Z :=
  if k <=? 62 then 2 ^ k else float_overflow_int W k.

(** *** WriteHeader *)

Definition magic : list byte := list_byte_of_string "Proof of Space Plot".

(** [sizeBuf := make([]byte, 2); sizeBuf[0] = byte(len(memo))] *)
Definition sizeBuf (memo : list byte) : list byte := [byte_of_Z (len memo); x00].

Definition WriteHeader (file : File) (k : Z) (memo id : list byte)
  : M (Z * option error) :=
  '(n, err) <- file_Write file magic ;;
  match err with
  | Some e => ret (n, Some e)
  | None =>
      '(nmore, err) <- file_Write file id ;;
      let n := int_add n nmore in
      match err with
      | Some e => ret (n, Some e)
      | None =>
          '(nmore, err) <- file_Write file [byte_of_Z k] ;;
          let n := int_add n nmore in
          match err with
          | Some e => ret (n, Some e)
          | None =>
              '(nmore, err) <- file_Write file (sizeBuf memo) ;;
              let n := int_add n nmore in
              match err with
              | Some e => ret (n, Some e)
              | None =>
                  '(nmore, err) <- file_Write file memo ;;
                  ret (int_add n nmore, err)
              end
          end
      end
  end.

(** *** WriteFirstTable *)

(** [for x := uint64(0); x < maxNumber; x++ { ... }] from the state
    [(x, wrote)]; [fuel] bounds the iterations left. *)
Fixpoint first_table_loop (f1 : F1 W) (file : File) (k start maxNumber : Z)
    (fuel : nat) (x wrote : Z) : M (Z * option error) :=
  if x <? maxNumber then
    match fuel with
    | O => out_of_fuel
    | S fuel' =>
        let f1x := F1_Calculate W f1 x in
        '(n, err) <- codec_Write file (int_add start wrote)
                       [Some x; Some f1x; Some k] ;;
        match err with
        | Some e => ret (int_add wrote n, Some e)
        | None =>
            first_table_loop f1 file k start maxNumber fuel'
              (u64_add x 1) (int_add wrote n)
        end
    end
  else ret (wrote, None).

Definition WriteFirstTable (file : File) (k start : Z) (id : list byte)
  : M (Z * option error) :=
  match NewF1 W k id with
  | inl err => ret (0, Some err)
  | inr f1 =>
      let maxNumber := pow2_u64 k in
      '(wrote, err) <- first_table_loop f1 file k start maxNumber
                         (Z.to_nat maxNumber) 0 0 ;;
      match err with
      | Some e => ret (wrote, Some e)
      | None =>
          '(_, err) <- file_Write file (serialize_EOT W) ;;
          match err with
          | Some e => ret (wrote, Some e)
          | None => ret (wrote, None)
          end
      end
  end.

(** *** WriteTable *)

(** The variables of [WriteTable] that live across iterations. *)
Record TableState : Type := {
  read : Z;
  written : Z;
  bucketID : Z;
  leftBucket : list Entry;
  rightBucket : list Entry;
  index : Z
}.

Definition initial_state : TableState :=
  {| read := 0; written := 0; bucketID := 0;
     leftBucket := []; rightBucket := []; index := 0 |}.

(** [for _, m := range FindMatches(leftBucket, rightBucket) { ... }]: the
    new [written], and the error of the [return] that left the loop. *)
Fixpoint write_matches (file : File) (k t currentStart : Z) (fx : FxT W)
    (ms : list Match) (written : Z) : M (Z * option error) :=
  match ms with
  | [] => ret (written, None)
  | m :: ms' =>
      match Fx_Calculate W fx t (Left m) (LeftMetadata m) (RightMetadata m) with
      | inl err => ret (written, Some err)
      | inr f =>
          match Collate W t (to_u64 k) (LeftMetadata m) (RightMetadata m) with
          | inl err => ret (written, Some err)
          | inr collated =>
              '(w, err) <- codec_Write file (int_add currentStart written)
                             [Some f; None; None; None; Some collated; Some k] ;;
              match err with
              | Some e => ret (int_add written w, Some e)
              | None =>
                  write_matches file k t currentStart fx ms' (int_add written w)
              end
          end
      end
  end.

Definition nonempty {A} (l : list A) : bool :=
  match l with [] => false | _ => true end.

(** The [switch] on [leftBucketID] for the entry just read, then
    [index++]. *)
Definition classify (file : File) (k t currentStart : Z) (fx : FxT W)
    (st : TableState) (leftEntry : Entry)
  : M (flow TableState (Z * option error)) :=
  let leftBucketID := parameters_BucketID W (Fx leftEntry) in
  if leftBucketID =? bucketID st then
    ret (Next {| read := read st; written := written st;
                 bucketID := bucketID st;
                 leftBucket := leftBucket st ++ [leftEntry];
                 rightBucket := rightBucket st;
                 index := int_add (index st) 1 |})
  else if leftBucketID =? u64_add (bucketID st) 1 then
    ret (Next {| read := read st; written := written st;
                 bucketID := bucketID st;
                 leftBucket := leftBucket st;
                 rightBucket := rightBucket st ++ [leftEntry];
                 index := int_add (index st) 1 |})
  else
    '(written', err) <-
       (if nonempty (leftBucket st) && nonempty (rightBucket st) then
          write_matches file k t currentStart fx
            (FindMatches W (leftBucket st) (rightBucket st)) (written st)
        else ret (written st, None)) ;;
    match err with
    | Some e => ret (Return (written', Some e))
    | None =>
        if leftBucketID =? u64_add (bucketID st) 2 then
          ret (Next {| read := read st; written := written';
                       bucketID := u64_add (bucketID st) 1;
                       leftBucket := rightBucket st;
                       rightBucket := [];
                       index := int_add (index st) 1 |})
        else
          ret (Next {| read := read st; written := written';
                       bucketID := leftBucketID;
                       leftBucket := [];
                       rightBucket := [];
                       index := int_add (index st) 1 |})
    end.

Definition with_read (st : TableState) (r : Z) : TableState :=
  {| read := r; written := written st; bucketID := bucketID st;
     leftBucket := leftBucket st; rightBucket := rightBucket st;
     index := index st |}.

(** One iteration of the [for] of [WriteTable]. *)
Definition table_step (file : File) (k t previousStart currentStart entryLen : Z)
    (fx : FxT W) (st : TableState)
  : M (flow TableState (Z * option error)) :=
  '(leftEntry, bytesRead, err) <-
     codec_Read file (int_add previousStart (read st)) entryLen k ;;
  match err with
  | Some e =>
      if is_EOTErr e || is_EOF e then ret (Break st)
      else ret (Return (written st,
                        Some (Errorf ("cannot read left entry: " ++ error_text e))))
  | None =>
      let st := with_read st (int_add (read st) bytesRead) in
      let leftEntry := set_Index leftEntry (index st) in
      classify file k t currentStart fx st leftEntry
  end.

(** The [for] of [WriteTable] with the state it stops in; the loop has no
    bound of its own, [fuel] bounds the iterations. *)
Fixpoint table_loop (file : File) (k t previousStart currentStart entryLen : Z)
    (fx : FxT W) (fuel : nat) (st : TableState)
  : M (TableState * option (Z * option error)) :=
  match fuel with
  | O => out_of_fuel
  | S fuel' =>
      fl <- table_step file k t previousStart currentStart entryLen fx st ;;
      match fl with
      | Next st' =>
          table_loop file k t previousStart currentStart entryLen fx fuel' st'
      | Break st' => ret (st', None)
      | Return r => ret (st, Some r)
      end
  end.

Definition WriteTable (fuel : nat) (file : File)
    (k t previousStart currentStart entryLen : Z) (fx : FxT W)
  : M (Z * option error) :=
  _ <- mark (EnterWriteTable t previousStart currentStart entryLen) ;;
  '(st, r) <- table_loop file k t previousStart currentStart entryLen fx
                fuel initial_state ;;
  match r with
  | Some r => ret r
  | None => ret (written st, None)
  end.

(** *** WritePlotFile *)

(** The variables the table loop of [WritePlotFile] updates. *)
Record Offsets : Type := {
  previousStart : Z;
  currentStart : Z;
  entryLen : Z
}.

(** The body of [for t := 2; t <= 7; t++ { ... }]. *)
Definition tables_body (fuel : nat) (file : File) (k maxNumber : Z) (fx : FxT W)
    (t : Z) (v : Offsets) : M (flow Offsets error) :=
  '(wrote, err) <- WriteTable fuel file k t (previousStart v) (currentStart v)
                     (entryLen v) fx ;;
  match err with
  | Some e => ret (Return e)
  | None =>
      entryLen' <- int_div wrote maxNumber ;;
      ret (Break {| previousStart := int_add (previousStart v) wrote;
                    currentStart := int_add (currentStart v) wrote;
                    entryLen := entryLen' |})
  end.

Fixpoint tables_loop (fuel : nat) (file : File) (k maxNumber : Z) (fx : FxT W)
    (n : nat) (t : Z) (v : Offsets) : M (Offsets * option error) :=
  if t <=? 7 then
    match n with
    | O => out_of_fuel
    | S n' =>
        fl <- tables_body fuel file k maxNumber fx t v ;;
        match fl with
        | Next v' => tables_loop fuel file k maxNumber fx n' (int_add t 1) v'
        | Break v' => ret (v', None)
        | Return e => ret (v, Some e)
        end
    end
  else ret (v, None).

(** [WritePlotFile] from "Sorting table 1..." to its end: the entry
    length, the sort of table 1, [NewFx] and the table loop. *)
Definition sort_and_build (fuel : nat) (file : File) (spare : option File)
    (k availableMemory : Z) (id : list byte) (headerLen wrote : Z)
  : M (option error) :=
  let maxNumber := pow2_int k in
  entryLen <- int_div wrote maxNumber ;;
  err <- disk_sort file spare headerLen (int_add wrote headerLen)
           availableMemory entryLen maxNumber k ;;
  match err with
  | Some e => ret (Some e)
  | None =>
      match NewFx W (to_u64 k) id with
      | inl e => ret (Some e)
      | inr fx =>
          let v := {| previousStart := headerLen;
                      currentStart := int_add headerLen wrote;
                      entryLen := entryLen |} in
          '(_, err) <- tables_loop fuel file k maxNumber fx 6 2 v ;;
          ret err
      end
  end.

(** [WritePlotFile(filename, k, availableMemory, memo, id)]; [fuel] bounds
    the iterations of each [WriteTable] pass. *)
Definition WritePlotFile (fuel : nat) (filename : string)
    (k availableMemory : Z) (memo id : list byte) : M (option error) :=
  '(file, err) <- fs_Create filename ;;
  match err with
  | Some e => ret (Some e)
  | None =>
      '(headerLen, err) <- WriteHeader file k memo id ;;
      match err with
      | Some e => ret (Some e)
      | None =>
          '(wrote, err) <- WriteFirstTable file k headerLen id ;;
          match err with
          | Some e => ret (Some e)
          | None =>
              '(spare, err) <-
                 (if wrote >? availableMemory then
                    '(spare, err) <- fs_Create (filename ++ "-spare") ;;
                    ret (Some spare, err)
                  else ret (None, None)) ;;
              match err with
              | Some e => ret (Some e)
              | None =>
                  sort_and_build fuel file spare k availableMemory id
                    headerLen wrote
              end
          end
      end
  end.

End Pipeline.

(** ** Reading a history *)

(** The buffers handed to [file.Write], in order. *)
Fixpoint file_writes (h : Hist) : list (list byte) :=
  match h with
  | [] => []
  | FileWrite _ buf _ _ :: h' => buf :: file_writes h'
  | _ :: h' => file_writes h'
  end.

(** The records handed to [serialize.Write]: offset and fields. *)
Fixpoint codec_writes (h : Hist) : list (Z * list (option Z)) :=
  match h with
  | [] => []
  | SerializeWrite _ offset args _ _ :: h' => (offset, args) :: codec_writes h'
  | _ :: h' => codec_writes h'
  end.

(** The table indices [WriteTable] was called with, in order. *)
Fixpoint entered_tables (h : Hist) : list Z :=
  match h with
  | [] => []
  | EnterWriteTable t _ _ _ :: h' => t :: entered_tables h'
  | _ :: h' => entered_tables h'
  end.

(** The regions [sort.OnDisk] was called on, in order. *)
Fixpoint sorted_regions (h : Hist) : list (Z * Z) :=
  match h with
  | [] => []
  | SortOnDisk _ _ start stop _ _ _ _ _ :: h' => (start, stop) :: sorted_regions h'
  | _ :: h' => sorted_regions h'
  end.

(** What follows the first call of [WriteTable] for table [t]. *)
Fixpoint events_after_enter (t : Z) (h : Hist) : Hist :=
  match h with
  | [] => []
  | EnterWriteTable t' _ _ _ :: h' =>
      if t' =? t then h' else events_after_enter t h'
  | _ :: h' => events_after_enter t h'
  end.

(** Calls other than [sort.OnDisk] and the start of a [WriteTable] pass. *)
Definition quiet (e : Event) : bool :=
  match e with
  | SortOnDisk _ _ _ _ _ _ _ _ _ | EnterWriteTable _ _ _ _ => false
  | _ => true
  end.

(** A computation that only adds quiet calls to the history. *)
Definition extends_quietly {A} (m : M A) : Prop :=
  forall h, exists ev, snd (m h) = h ++ ev /\ Forall (fun e => quiet e = true) ev.

(** The calls of one [WriteTable] pass for table [t]. *)
Definition one_pass (t : Z) (ev : Hist) : Prop :=
  exists previousStart currentStart entryLen q,
    ev = EnterWriteTable t previousStart currentStart entryLen :: q /\
    Forall (fun e => quiet e = true) q.

Definition is_sort (e : Event) : Prop :=
  match e with SortOnDisk _ _ _ _ _ _ _ _ _ => True | _ => False end.

(** The calls of a run from the sort of table 1 on: nothing (a panic), the
    sort alone, or the sort and then one pass, for table 2. *)
Definition sort_then_pass (ev : Hist) : Prop :=
  ev = [] \/
  exists s, is_sort s /\ (ev = [s] \/ exists p, one_pass 2 p /\ ev = s :: p).

Definition is_FileWrite (e : Event) : bool :=
  match e with FileWrite _ _ _ _ => true | _ => false end.

Definition sum (ns : list Z) : Z := fold_right Z.add 0 ns.

(** Successful writes of the first-table entries [x], [x+1], ... one
    after the other from [offset], the [i]-th of [ns.(i)] bytes. *)
Fixpoint entry_events (W : World) (f1 : F1 W) (file : File) (k : Z)
    (offset x : Z) (ns : list Z) : Hist :=
  match ns with
  | [] => []
  | n :: ns' =>
      SerializeWrite file offset [Some x; Some (F1_Calculate W f1 x); Some k] n None
      :: entry_events W f1 file k (offset + n) (x + 1) ns'
  end.

(** The five buffers of a complete header. *)
Definition header_fields (k : Z) (memo id : list byte) : list (list byte) :=
  [magic; id; [byte_of_Z k]; sizeBuf memo; memo].

(** The memo length a reader decodes from the two bytes of the header. *)
Definition le16 (buf : list byte) : Z :=
  match buf with
  | [b0; b1] => Z_of_byte b0 + 256 * Z_of_byte b1
  | _ => 0
  end.
Definition be16 (buf : list byte) : Z :=
  match buf with
  | [b0; b1] => 256 * Z_of_byte b0 + Z_of_byte b1
  | _ => 0
  end.

(** The answers of [file.Write], in order: the count and the error. *)
Fixpoint file_write_results (h : Hist) : list (Z * option error) :=
  match h with
  | [] => []
  | FileWrite _ _ n err :: h' => (n, err) :: file_write_results h'
  | _ :: h' => file_write_results h'
  end.

(** The answers of [serialize.Write], in order. *)
Fixpoint codec_write_results (h : Hist) : list (Z * option error) :=
  match h with
  | [] => []
  | SerializeWrite _ _ _ n err :: h' => (n, err) :: codec_write_results h'
  | _ :: h' => codec_write_results h'
  end.

(** The paths handed to [AppFs.Create], in order. *)
Fixpoint created (h : Hist) : list string :=
  match h with
  | [] => []
  | Create name _ :: h' => name :: created h'
  | _ :: h' => created h'
  end.

(** [w] plus the counts the codec writes of [ev] returned, added the way
    the code adds them. *)
Fixpoint bytes_after (w : Z) (ev : Hist) : Z :=
  match ev with
  | [] => w
  | SerializeWrite _ _ _ n _ :: ev' => bytes_after (int_add w n) ev'
  | _ :: ev' => bytes_after w ev'
  end.

(** Every codec write of [ev] is to [file], at [base] plus the bytes
    counted before it, [w] of them before the first. *)
Fixpoint sequential_writes (file : File) (base w : Z) (ev : Hist) : Prop :=
  match ev with
  | [] => True
  | SerializeWrite f offset _ n _ :: ev' =>
      f = file /\ offset = int_add base w /\
      sequential_writes file base (int_add w n) ev'
  | _ :: ev' => sequential_writes file base w ev'
  end.

(** Every codec read of [ev] is from [file] with the same [entryLen] and
    [k], at [base] plus the bytes the reads before it returned, [r] of them
    before the first. *)
Fixpoint sequential_reads (file : File) (base entryLen k r : Z) (ev : Hist)
  : Prop :=
  match ev with
  | [] => True
  | SerializeRead f offset el k' _ n _ :: ev' =>
      f = file /\ offset = int_add base r /\ el = entryLen /\ k' = k /\
      sequential_reads file base entryLen k (int_add r n) ev'
  | _ :: ev' => sequential_reads file base entryLen k r ev'
  end.

(** The left bucket holds entries of bucket [bucketID] only and the right
    bucket entries of bucket [bucketID + 1] only. *)
Definition buckets_adjacent (W : World) (st : TableState) : Prop :=
  Forall (fun e => parameters_BucketID W (Fx e) = bucketID st) (leftBucket st) /\
  Forall (fun e => parameters_BucketID W (Fx e) = u64_add (bucketID st) 1)
         (rightBucket st).

(** The entries of [l] carry increasing indices, all from [0] up to
    [bound] excluded. *)
Definition indexed_below (bound : Z) (l : list Entry) : Prop :=
  StronglySorted (fun a b => Index a < Index b) l /\
  Forall (fun e => 0 <= Index e < bound) l.

(** Both buckets are in read order, with indices below the next one. *)
Definition buckets_indexed (st : TableState) : Prop :=
  0 <= index st /\
  indexed_below (index st) (leftBucket st) /\
  indexed_below (index st) (rightBucket st).

(** The fields of the first-table records of [x], [x + 1], ..., [n] of
    them. *)
Fixpoint first_table_args (W : World) (f1 : F1 W) (k x : Z) (n : nat)
  : list (list (option Z)) :=
  match n with
  | O => []
  | S n' =>
      [Some x; Some (F1_Calculate W f1 x); Some k]
      :: first_table_args W f1 k (x + 1) n'
  end.

(** Answers that are successes up to, at most, one failure at the end;
    [err] is that failure, if any. *)
Definition fails_last (rs : list (Z * option error)) (err : option error) : Prop :=
  exists oks,
    Forall (fun r => snd r = None) oks /\
    match err with
    | None => rs = oks
    | Some e => exists n, rs = oks ++ [(n, Some e)]
    end.

(** [r] plus the counts the codec reads of [ev] returned. *)
Fixpoint read_after (r : Z) (ev : Hist) : Z :=
  match ev with
  | [] => r
  | SerializeRead _ _ _ _ _ n _ :: ev' => read_after (int_add r n) ev'
  | _ :: ev' => read_after r ev'
  end.

(** A history without codec reads. *)
Definition no_reads (ev : Hist) : Prop :=
  forall f base el k' r,
    sequential_reads f base el k' r ev /\ read_after r ev = r.

(** The state after the [switch], by the branch taken. *)
Definition switched (W : World) (st : TableState) (leftEntry : Entry) (st' : TableState)
  : Prop :=
  let id := parameters_BucketID W (Fx leftEntry) in
  index st' = int_add (index st) 1 /\
  read st' = read st /\
  ((id = bucketID st /\ bucketID st' = bucketID st /\
    leftBucket st' = leftBucket st ++ [leftEntry] /\
    rightBucket st' = rightBucket st /\ written st' = written st) \/
   (id = u64_add (bucketID st) 1 /\ bucketID st' = bucketID st /\
    leftBucket st' = leftBucket st /\
    rightBucket st' = rightBucket st ++ [leftEntry] /\
    written st' = written st) \/
   (id = u64_add (bucketID st) 2 /\ bucketID st' = u64_add (bucketID st) 1 /\
    leftBucket st' = rightBucket st /\ rightBucket st' = []) \/
   (bucketID st' = id /\ leftBucket st' = [] /\ rightBucket st' = [])).

(** Writes and reads through [file.Write] and the codec. *)
Definition is_io (e : Event) : bool :=
  match e with
  | FileWrite _ _ _ _ | SerializeWrite _ _ _ _ _ | SerializeRead _ _ _ _ _ _ _ =>
      true
  | _ => false
  end.

(** A computation that only adds such calls to the history. *)
Definition extends_io {A} (m : M A) : Prop :=
  forall h, exists ev, snd (m h) = h ++ ev /\ Forall (fun e => is_io e = true) ev.

(** The calls of writing [bufs] to [file] one after the other with
    [file.Write], up to and including the first that fails. *)
Fixpoint writes_until_error (W : World) (file : File) (bufs : list (list byte))
    (h : Hist) : Hist :=
  match bufs with
  | [] => []
  | buf :: bufs' =>
      let r := afero_Write W h file buf in
      let e := FileWrite file buf (fst r) (snd r) in
      e :: match snd r with
           | Some _ => []
           | None => writes_until_error W file bufs' (h ++ [e])
           end
  end.

(** Successful writes of the first-table entries [x], [x+1], ... at the
    offsets the code computes: [start] plus the running count [wrote], both
    sums taken in [int]. *)
Fixpoint entry_events_int (W : World) (f1 : F1 W) (file : File) (k : Z)
    (start wrote x : Z) (ns : list Z) : Hist :=
  match ns with
  | [] => []
  | n :: ns' =>
      SerializeWrite file (int_add start wrote)
        [Some x; Some (F1_Calculate W f1 x); Some k] n None
      :: entry_events_int W f1 file k start (int_add wrote n) (x + 1) ns'
  end.

(** [w + n1 + n2 + ...] in [int]. *)
Definition int_sum (w : Z) (ns : list Z) : Z := fold_left int_add ns w.

(** No [serialize.Write] and no [file.Write] ever answers with an error. *)
Definition writes_never_fail (W : World) : Prop :=
  (forall h file offset args, snd (serialize_Write W h file offset args) = None) /\
  (forall h file buf, snd (afero_Write W h file buf) = None).

(** Every first-table record of [k] takes between [0] and [B] bytes. *)
Definition record_bound (W : World) (k B : Z) : Prop :=
  forall h file offset x f1x,
    0 <= fst (serialize_Write W h file offset [Some x; Some f1x; Some k]) <= B.

End Plot.

(** * Concrete collaborators

    Small stand-ins for the packages outside [pkg/pos], used to run the
    code on explicit inputs. *)

Module Fixture.

Import Encrypt Plot.

(** The collation sizes of the seven tables. *)
Definition CollaSize (t : Z) : error + Z :=
  if t =? 2 then inr 1
  else if (t =? 3) || (t =? 7) then inr 2
  else if t =? 6 then inr 3
  else if (t =? 4) || (t =? 5) then inr 4
  else inl (Errorf "collation size is undefined").

Definition ConcatBig (k x y : Z) : Z := Z.lor (Z.shiftl x k) y.

Definition Trunc (x a b k : Z) : Z := Z.land x (Z.ones b).

Definition pad16 (src : list byte) : list byte :=
  firstn 16 (src ++ repeat x00 16).

(** A cipher that always answers with sixteen bytes. *)
Definition cipher_total : Block :=
  {| BlockSize := 16;
     Encrypt := fun _ src => Some (rev (pad16 src)) |}.

(** A cipher that, like [crypto/aes], panics unless both slices hold a
    full block. *)
Definition cipher_checked : Block :=
  {| BlockSize := 16;
     Encrypt := fun dst src =>
       if (Nat.ltb (length dst) 16) || (Nat.ltb (length src) 16) then None
       else Some (rev (pad16 src)) |}.

(** Every field of a record takes two bytes. *)
Definition record_size (args : list (option Z)) : Z :=
  2 * Z.of_nat (length (filter (fun a => match a with Some _ => true | None => false end) args)).

(** The previous table as the codec shows it: the [i]-th entry of [table]
    (its hash value) at [base + i * entryLen], the end-of-table error
    after the last one. *)
Definition read_at (base : Z) (table : list Z) (offset entryLen : Z)
  : Entry * Z * option error :=
  let i := (offset - base) / entryLen in
  if (base <=? offset) && (0 <? entryLen) && (i <? Z.of_nat (length table)) then
    ({| Fx := nth (Z.to_nat i) table 0; Index := 0; Rest := [] |}, entryLen, None)
  else
    ({| Fx := 0; Index := 0; Rest := [] |}, 0, Some EOTErr).

(** Every entry of the left bucket matches every entry of the right one. *)
Definition all_pairs (l r : list Entry) : list Match :=
  flat_map (fun a =>
    map (fun b => {| Left := Fx a; LeftMetadata := Index a;
                     RightMetadata := Index b |}) r) l.

(** No call fails; [f1] and the bucket id are the identity; a power of
    two that does not fit converts as on amd64. *)
Definition world (base : Z) (table : list Z) : World :=
  {| F1 := unit;
     FxT := unit;
     afero_Create := fun _ _ => None;
     afero_Write := fun _ _ buf => (len buf, None);
     serialize_EOT := list_byte_of_string "EOT";
     serialize_Write := fun _ _ _ args => (record_size args, None);
     serialize_Read := fun _ _ offset entryLen _ => read_at base table offset entryLen;
     sort_OnDisk := fun _ _ _ _ _ _ _ _ _ => None;
     parameters_BucketID := fun fx => fx;
     NewF1 := fun _ _ => inr tt;
     F1_Calculate := fun _ x => x;
     NewFx := fun _ _ => inr tt;
     Fx_Calculate := fun _ t l lm rm => inr (l + lm + rm);
     Collate := fun t k lm rm => inr (Z.lor (Z.shiftl lm k) rm);
     FindMatches := all_pairs;
     float_overflow_u64 := fun _ => 2 ^ 63;
     float_overflow_int := fun _ => - 2 ^ 63 |}.

(** The plot of [k = 2]: a header of 54 bytes, then the four entries of
    table 1 as [WriteFirstTable] writes them in this world. *)
Definition plot_world : World := world 54 [0; 1; 2; 3].

(** A plot id of thirty-two zero bytes. *)
Definition plot_id : list byte := repeat x00 32.

End Fixture.

(** * Sanity checks of the embedding *)

Example to_int_wraps : to_int (2 ^ 63) = - 2 ^ 63 /\ to_int (-1) = -1.
Proof. split; reflexivity. Qed.

Example byte_of_Z_low_bits : byte_of_Z 300 = x2c /\ byte_of_Z (-1) = xff.
Proof. split; reflexivity. Qed.

Example Bytes_big_endian :
  Encrypt.Bytes 0 = [] /\ Encrypt.Bytes 258 = [x01; x02] /\
  Encrypt.Bytes (-258) = [x01; x02] /\ Encrypt.SetBytes [x01; x02] = 258 /\
  Encrypt.SetBytes [] = 0.
Proof. repeat split; reflexivity. Qed.

Example store_keeps_length :
  Encrypt.store [x00; x00] [x0a; x0b; x0c] = [x0a; x0b] /\
  Encrypt.store [] [x0a; x0b; x0c] = [].
Proof. split; reflexivity. Qed.

Example magic_is_19_bytes : Plot.len Plot.magic = 19.
Proof. reflexivity. Qed.

(** * Properties of [At] *)

Section AtProperties.

Import Encrypt.

Variable ConcatBig : Z -> Z -> Z -> Z.
Variable Trunc : Z -> Z -> Z -> Z -> Z.
Variable CollaSize : Z -> error + Z.

Lemma store_nil (out : list byte) : store [] out = [].
Proof. unfold store. simpl. apply skipn_nil. Qed.

(** A call on a nil destination leaves it nil, whatever the cipher wrote. *)
Lemma encrypt_nil (c : Block) (src : list byte) :
  encrypt c [] src = ([{| call_dst := []; call_src := src |}], Ok []) \/
  encrypt c [] src = ([{| call_dst := []; call_src := src |}], Panicked).
Proof.
  unfold encrypt. destruct (Encrypt c [] src).
  - left. now rewrite store_nil.
  - now right.
Qed.

Ltac step_encrypt c src :=
  let H := fresh "H" in
  destruct (encrypt_nil c src) as [H | H]; rewrite H; cbn [bind ret app fst snd].

(** The [switch] calls the cipher on nil destinations only and hands back
    a nil [cipherText], unless the cipher panics. *)
Lemma main_logic_nil (x y k : Z) (c : Block) (size : Z) :
  Forall nil_dst (calls (main_logic ConcatBig x y k c size)) /\
  (outcome (main_logic ConcatBig x y k c size) = Ok [] \/
   outcome (main_logic ConcatBig x y k c size) = Panicked).
Proof.
  unfold main_logic, calls, outcome.
  destruct (in_range 0 128 size).
  { match goal with |- context [encrypt c [] ?s] => step_encrypt c s end;
      (split; [repeat constructor | auto]). }
  destruct (in_range 129 256 size).
  { cbn [bind].
    repeat match goal with |- context [encrypt c [] ?s] => step_encrypt c s end;
      (split; [repeat constructor | auto]). }
  destruct (in_range 257 384 size).
  { cbn [bind].
    repeat match goal with |- context [encrypt c [] ?s] => step_encrypt c s end;
      (split; [repeat constructor | auto]). }
  destruct (in_range 385 512 size).
  { cbn [bind].
    repeat match goal with |- context [encrypt c [] ?s] => step_encrypt c s end;
      (split; [repeat constructor | auto]). }
  cbn. split; [constructor | auto].
Qed.

Lemma main_logic_total (x y k : Z) (c : Block) (size : Z) :
  (forall dst src, Encrypt c dst src <> None) ->
  outcome (main_logic ConcatBig x y k c size) = Ok [].
Proof.
  intros Htotal.
  assert (Hstep : forall src,
             encrypt c [] src = ([{| call_dst := []; call_src := src |}], Ok [])).
  { intros src. unfold encrypt. destruct (Encrypt c [] src) eqn:E.
    - now rewrite store_nil.
    - now apply Htotal in E. }
  unfold main_logic, outcome.
  repeat match goal with
         | |- context [if ?b then _ else _] => destruct b
         end;
    cbn [bind]; rewrite ?Hstep; cbn [bind ret app fst snd]; rewrite ?Hstep;
    cbn [bind ret app fst snd]; rewrite ?Hstep; cbn [bind ret app fst snd];
    rewrite ?Hstep; reflexivity.
Qed.

Lemma main_logic_calls (x y k : Z) (c : Block) (size : Z) :
  0 <= size <= 512 ->
  calls (main_logic ConcatBig x y k c size) <> [].
Proof.
  intros Hsize. unfold main_logic, calls.
  destruct (in_range 0 128 size) eqn:E1.
  { match goal with |- context [encrypt c [] ?s] => step_encrypt c s end;
      discriminate. }
  destruct (in_range 129 256 size) eqn:E2.
  { cbn [bind].
    repeat match goal with |- context [encrypt c [] ?s] => step_encrypt c s end;
      discriminate. }
  destruct (in_range 257 384 size) eqn:E3.
  { cbn [bind].
    repeat match goal with |- context [encrypt c [] ?s] => step_encrypt c s end;
      discriminate. }
  destruct (in_range 385 512 size) eqn:E4.
  { cbn [bind].
    repeat match goal with |- context [encrypt c [] ?s] => step_encrypt c s end;
      discriminate. }
  exfalso. unfold in_range in *.
  apply andb_false_iff in E1, E2, E3, E4.
  rewrite !Z.leb_gt in *. lia.
Qed.

Lemma main_logic_out_of_range (x y k : Z) (c : Block) (size : Z) :
  size < 0 \/ 512 < size ->
  main_logic ConcatBig x y k c size = ([], Ok []).
Proof.
  intros Hsize. unfold main_logic, in_range.
  repeat match goal with
         | |- context [?a <=? ?b] =>
             let E := fresh "E" in destruct (Z.leb_spec a b) as [E | E]
         end; cbn [andb]; try reflexivity; lia.
Qed.

(** C3 (the destination of every [Encrypt] call): when one of the four
    size cases of [At] runs, the cipher is called at least once, every
    call receives the nil slice (length 0, shorter than the 16-byte block)
    as destination, and with a cipher that returns rather than panics the
    cipher text read back is empty, so that [At] returns the truncation of
    zero with a nil error, the same for every [x], [y] and cipher. *)
Theorem At_destination_never_allocated
    (x y k t : Z) (c : Block) (collaSize : Z) :
  CollaSize t = inr collaSize ->
  0 <= combined_size k collaSize <= 512 ->
  calls (At ConcatBig Trunc CollaSize x y k t c) <> [] /\
  Forall (fun call => call_dst call = [] /\ (length (call_dst call) < 16)%nat)
         (calls (At ConcatBig Trunc CollaSize x y k t c)) /\
  ((forall dst src, Encrypt c dst src <> None) ->
   outcome (At ConcatBig Trunc CollaSize x y k t c)
   = Ok (hash_of_nothing Trunc k, None)).
Proof.
  intros Hcolla Hsize. unfold At. rewrite Hcolla.
  pose proof (main_logic_nil x y k c (combined_size k collaSize)) as [Hnil Hout].
  pose proof (main_logic_calls x y k c _ Hsize) as Hcalls.
  pose proof (main_logic_total x y k c (combined_size k collaSize)) as Htotal.
  unfold calls, outcome in *.
  destruct (main_logic ConcatBig x y k c (combined_size k collaSize))
    as [l [cipherText | ]]; cbn [bind ret fst snd] in *.
  - rewrite app_nil_r. split; [assumption | split].
    + eapply Forall_impl; [ | exact Hnil].
      unfold nil_dst. intros call ->. split; [reflexivity | simpl; lia].
    + intros Ht. specialize (Htotal Ht). injection Htotal as ->. reflexivity.
  - split; [assumption | split].
    + eapply Forall_impl; [ | exact Hnil].
      unfold nil_dst. intros call ->. split; [reflexivity | simpl; lia].
    + intros Ht. specialize (Htotal Ht). discriminate.
Qed.

End AtProperties.

Section AtErrors.

Import Encrypt.

Variable ConcatBig : Z -> Z -> Z -> Z.
Variable Trunc : Z -> Z -> Z -> Z -> Z.
Variable CollaSize : Z -> error + Z.

(** C4, as the code has it: [At] returns an error exactly when
    [CollaSize(t)] does, and hands that error on before it calls the
    cipher.  In every other case it returns a nil error, or the cipher
    panics ([Encrypt] has no error result): with a cipher that returns, the
    value is the truncation of zero, and for a [size] outside [0, 512],
    where no case of the [switch] matches, the cipher is not called at
    all. *)
Theorem At_error_iff_CollaSize_error (x y k t : Z) (c : Block) :
  ((exists r e, outcome (At ConcatBig Trunc CollaSize x y k t c) = Ok (r, Some e))
   <-> (exists e, CollaSize t = inl e)) /\
  (forall e, CollaSize t = inl e ->
     At ConcatBig Trunc CollaSize x y k t c = ([], Ok (0, Some e))) /\
  (forall collaSize, CollaSize t = inr collaSize ->
     (outcome (At ConcatBig Trunc CollaSize x y k t c)
        = Ok (hash_of_nothing Trunc k, None) \/
      outcome (At ConcatBig Trunc CollaSize x y k t c) = Panicked) /\
     ((forall dst src, Encrypt c dst src <> None) ->
      outcome (At ConcatBig Trunc CollaSize x y k t c)
        = Ok (hash_of_nothing Trunc k, None)) /\
     (combined_size k collaSize < 0 \/ 512 < combined_size k collaSize ->
      At ConcatBig Trunc CollaSize x y k t c
        = ([], Ok (hash_of_nothing Trunc k, None)))).
Proof.
  assert (Hinr : forall collaSize, CollaSize t = inr collaSize ->
     (outcome (At ConcatBig Trunc CollaSize x y k t c)
        = Ok (hash_of_nothing Trunc k, None) \/
      outcome (At ConcatBig Trunc CollaSize x y k t c) = Panicked) /\
     ((forall dst src, Encrypt c dst src <> None) ->
      outcome (At ConcatBig Trunc CollaSize x y k t c)
        = Ok (hash_of_nothing Trunc k, None)) /\
     (combined_size k collaSize < 0 \/ 512 < combined_size k collaSize ->
      At ConcatBig Trunc CollaSize x y k t c
        = ([], Ok (hash_of_nothing Trunc k, None)))).
  { intros collaSize Hc. unfold At. rewrite Hc.
    pose proof (main_logic_nil ConcatBig x y k c (combined_size k collaSize))
      as [_ Hout].
    pose proof (main_logic_total ConcatBig x y k c (combined_size k collaSize))
      as Htotal.
    pose proof (main_logic_out_of_range ConcatBig x y k c
                  (combined_size k collaSize)) as Hrange.
    unfold outcome in *.
    destruct (main_logic ConcatBig x y k c (combined_size k collaSize))
      as [l [cipherText | ]]; cbn [bind ret fst snd] in *.
    - destruct Hout as [Hout | Hout]; [ | discriminate].
      injection Hout as ->. repeat split; auto.
      intros Hs. specialize (Hrange Hs). injection Hrange as ->. reflexivity.
    - repeat split; auto.
      + intros Ht. specialize (Htotal Ht). discriminate.
      + intros Hs. specialize (Hrange Hs). discriminate. }
  split; [ | split; [ | exact Hinr]].
  - split.
    + intros (r & e & Hout). destruct (CollaSize t) as [e' | collaSize] eqn:Hc.
      * now exists e'.
      * destruct (Hinr collaSize eq_refl) as [[H | H] _];
          rewrite H in Hout; discriminate.
    + intros (e & Hc). exists 0, e. unfold At. now rewrite Hc.
  - intros e Hc. unfold At. now rewrite Hc.
Qed.

End AtErrors.

(** C4 as stated fails: with [k = 100] and [t = 4] the combined size is
    [800 > 512], and [At] returns a value and a nil error, without a call
    to the cipher, instead of an "unsupported collation size" error. *)
Lemma At_above_512_returns_no_error :
  Fixture.CollaSize 4 = inr 4 /\
  512 < Encrypt.combined_size 100 4 /\
  Encrypt.At Fixture.ConcatBig Fixture.Trunc Fixture.CollaSize
    1 2 100 4 Fixture.cipher_checked
  = ([], Encrypt.Ok (0, None)).
Proof. vm_compute. repeat split. Qed.

Lemma At_error_iff_CollaSize_error_witness :
  Encrypt.outcome
    (Encrypt.At Fixture.ConcatBig Fixture.Trunc Fixture.CollaSize
       1 2 10 4 Fixture.cipher_total)
  = Encrypt.Ok (Encrypt.hash_of_nothing Fixture.Trunc 10, None).
Proof.
  refine (proj1 (proj2 (proj2 (proj2
            (At_error_iff_CollaSize_error Fixture.ConcatBig Fixture.Trunc
               Fixture.CollaSize 1 2 10 4 Fixture.cipher_total)) 4 _)) _).
  - reflexivity.
  - intros dst src. simpl. discriminate.
Defined.

Lemma At_destination_never_allocated_witness :
  Encrypt.calls
    (Encrypt.At Fixture.ConcatBig Fixture.Trunc Fixture.CollaSize
       1 2 10 4 Fixture.cipher_total) <> [] /\
  Forall (fun call => Encrypt.call_dst call = [] /\
                      (length (Encrypt.call_dst call) < 16)%nat)
    (Encrypt.calls
       (Encrypt.At Fixture.ConcatBig Fixture.Trunc Fixture.CollaSize
          1 2 10 4 Fixture.cipher_total)) /\
  ((forall dst src, Encrypt.Encrypt Fixture.cipher_total dst src <> None) ->
   Encrypt.outcome
     (Encrypt.At Fixture.ConcatBig Fixture.Trunc Fixture.CollaSize
        1 2 10 4 Fixture.cipher_total)
   = Encrypt.Ok (Encrypt.hash_of_nothing Fixture.Trunc 10, None)).
Proof.
  apply (At_destination_never_allocated Fixture.ConcatBig Fixture.Trunc
           Fixture.CollaSize 1 2 10 4 Fixture.cipher_total 4).
  - reflexivity.
  - vm_compute. split; discriminate.
Defined.

(** * Properties of [WriteHeader] *)

Section HeaderProperties.

Import Plot.

Variable W : World.

Lemma Z_of_byte_of_Z (z : Z) : Z_of_byte (byte_of_Z z) = z mod 256.
Proof.
  unfold Z_of_byte, byte_of_Z.
  assert (Hb : 0 <= z mod 256 < 256) by (apply Z.mod_pos_bound; lia).
  destruct (Byte.of_N (Z.to_N (z mod 256))) as [b | ] eqn:E.
  - apply Byte.to_of_N in E. rewrite E. lia.
  - apply Byte.of_N_None_iff in E. lia.
Qed.

Lemma file_writes_app (h1 h2 : Hist) :
  file_writes (h1 ++ h2) = file_writes h1 ++ file_writes h2.
Proof.
  induction h1 as [ | e h1 IH]; [reflexivity | ].
  destruct e; simpl; rewrite IH; reflexivity.
Qed.

(** [WriteHeader] always returns, having written the fields in order up to
    the first failing write. *)
Lemma WriteHeader_writes (file : File) (k : Z) (memo id : list byte) (h : Hist) :
  exists n err h',
    WriteHeader W file k memo id h = (Val (n, err), h') /\
    exists m, file_writes h' = file_writes h ++ firstn m (header_fields k memo id) /\
              (err = None -> m = 5%nat).
Proof.
  unfold WriteHeader, bind, file_Write, ret, header_fields.
  repeat match goal with
         | |- context [afero_Write W ?hh ?f ?b] =>
             let n := fresh "n" in
             let e := fresh "e" in
             destruct (afero_Write W hh f b) as [n [e | ]]; cbn [fst snd]
         end;
    do 3 eexists; (split; [reflexivity | ]);
    rewrite ?file_writes_app; cbn [file_writes]; rewrite <- ?app_assoc;
    cbn [app].
  - exists 1%nat. split; [reflexivity | discriminate].
  - exists 2%nat. split; [reflexivity | discriminate].
  - exists 3%nat. split; [reflexivity | discriminate].
  - exists 4%nat. split; [reflexivity | discriminate].
  - exists 5%nat. split; [reflexivity | discriminate].
  - exists 5%nat. split; [reflexivity | reflexivity].
Qed.

(** [WriteHeader] writes the five fields to [file] in order, up to and
    including the first write that fails. *)
Lemma WriteHeader_trace (file : File) (k : Z) (memo id : list byte) (h : Hist) :
  exists n err,
    WriteHeader W file k memo id h
    = (Val (n, err),
       h ++ writes_until_error W file (header_fields k memo id) h) /\
    (err = None ->
     file_writes (writes_until_error W file (header_fields k memo id) h)
     = header_fields k memo id) /\
    ((forall hh f buf, snd (afero_Write W hh f buf) = None) -> err = None).
Proof.
  unfold WriteHeader, bind, file_Write, ret, header_fields.
  cbn [writes_until_error].
  repeat match goal with
         | |- context [afero_Write W ?hh ?f ?b] =>
             let n := fresh "n" in
             let e := fresh "e" in
             let E := fresh "E" in
             destruct (afero_Write W hh f b) as [n [e | ]] eqn:E; cbn [fst snd]
         end;
    do 2 eexists; rewrite <- ?app_assoc; cbn [app];
    (split; [reflexivity | ]);
    (split; [intros Hnone; try discriminate; reflexivity | ]);
    intros Hnf; try reflexivity;
    match goal with
    | E : afero_Write W ?hh ?f ?b = (_, Some _) |- _ =>
        let X := fresh "X" in
        pose proof (Hnf hh f b) as X; rewrite E in X; discriminate X
    end.
Qed.

(** C10 (memo length field): whatever the writes answer, [WriteHeader]
    writes to [file], in this order, the magic, the id, the byte [k], a
    two-byte field and the whole memo, stopping only at a write that fails;
    when no write fails it returns a nil error, and a nil error means all
    five were written.  The first byte of the field is [len(memo) mod 256]
    and the second is zero, so for a memo of 256 bytes or more the recorded
    length, read in either byte order, is not the length of the memo. *)
Theorem WriteHeader_memo_length_low_byte
    (file : File) (k : Z) (memo id : list byte) (h : Hist) :
  (exists b0, sizeBuf memo = [b0; x00] /\ Z_of_byte b0 = len memo mod 256) /\
  (exists n err,
     WriteHeader W file k memo id h
     = (Val (n, err),
        h ++ writes_until_error W file
               [magic; id; [byte_of_Z k]; sizeBuf memo; memo] h) /\
     (err = None ->
      file_writes (writes_until_error W file
                     [magic; id; [byte_of_Z k]; sizeBuf memo; memo] h)
      = [magic; id; [byte_of_Z k]; sizeBuf memo; memo]) /\
     ((forall hh f buf, snd (afero_Write W hh f buf) = None) -> err = None)) /\
  (256 <= len memo ->
   le16 (sizeBuf memo) <> len memo /\ be16 (sizeBuf memo) <> len memo).
Proof.
  split; [ | split].
  - exists (byte_of_Z (len memo)). split; [reflexivity | apply Z_of_byte_of_Z].
  - exact (WriteHeader_trace file k memo id h).
  - intros Hlen. unfold le16, be16, sizeBuf.
    rewrite Z_of_byte_of_Z. change (Z_of_byte x00) with 0.
    pose proof (Z.mod_pos_bound (len memo) 256 ltac:(lia)) as Hb.
    split; [lia | ].
    intros Heq.
    assert (Hz : len memo mod 256 = 0).
    { rewrite <- Heq at 1. rewrite Z.add_0_r, Z.mul_comm.
      apply Z.mod_mul. lia. }
    lia.
Qed.

End HeaderProperties.

Lemma WriteHeader_memo_length_low_byte_witness :
  fst (Plot.WriteHeader Fixture.plot_world "plot"%string 2 (repeat x00 300)
         Fixture.plot_id []) = Plot.Val (354, None) /\
  Plot.file_writes
    (snd (Plot.WriteHeader Fixture.plot_world "plot"%string 2 (repeat x00 300)
            Fixture.plot_id []))
  = [Plot.magic; Fixture.plot_id; [x02]; [x2c; x00]; repeat x00 300] /\
  Plot.le16 [x2c; x00] = 44 /\
  Plot.le16 (Plot.sizeBuf (repeat x00 300)) <> 300 /\
  Plot.be16 (Plot.sizeBuf (repeat x00 300)) <> 300.
Proof.
  destruct (WriteHeader_memo_length_low_byte Fixture.plot_world "plot"%string 2
              (repeat x00 300) Fixture.plot_id [])
    as (_ & (n & err & Hrun & Hall & Hok) & Hlen).
  assert (Herr : err = None) by (apply Hok; intros hh f buf; reflexivity).
  specialize (Hall Herr). subst err.
  rewrite Hrun. cbn [fst snd app].
  split.
  - apply (f_equal fst) in Hrun. cbn [fst] in Hrun. rewrite <- Hrun.
    vm_compute. reflexivity.
  - split; [exact Hall | ].
    split; [reflexivity | ].
    apply Hlen. vm_compute. discriminate.
Defined.

(** * Properties of [WriteFirstTable] *)

Lemma to_int_small (z : Z) : - 2 ^ 63 <= z < 2 ^ 63 -> to_int z = z.
Proof.
  intros Hz. unfold to_int. rewrite Z.mod_small; lia.
Qed.

Lemma to_u64_small (z : Z) : 0 <= z < 2 ^ 64 -> to_u64 z = z.
Proof.
  intros Hz. unfold to_u64. apply Z.mod_small. lia.
Qed.

Section FirstTableProperties.

Import Plot.

Variable W : World.

Lemma first_table_loop_events (f1 : F1 W) (file : File) (k start maxNumber : Z) :
  maxNumber < 2 ^ 64 ->
  forall (fuel : nat) (x wrote : Z) (h : Hist),
    0 <= x ->
    Z.of_nat fuel = maxNumber - x ->
    exists r ev,
      first_table_loop W f1 file k start maxNumber fuel x wrote h
      = (Val r, h ++ ev) /\
      ((forall hh f o a, snd (serialize_Write W hh f o a) = None) ->
       snd r = None) /\
      (snd r = None ->
       exists ns,
         length ns = fuel /\
         ev = entry_events_int W f1 file k start wrote x ns /\
         fst r = int_sum wrote ns /\
         (forall B, record_bound W k B -> Forall (fun n => 0 <= n <= B) ns)).
Proof.
  intros Hmax.
  induction fuel as [ | fuel IH]; intros x wrote h Hx Hfuel.
  - cbn [first_table_loop].
    destruct (Z.ltb_spec x maxNumber) as [Hlt | Hge]; [lia | ].
    exists (wrote, None), []. rewrite app_nil_r.
    split; [reflexivity | ]. split; [reflexivity | ].
    intros _. exists []. repeat split; constructor.
  - cbn [first_table_loop].
    destruct (Z.ltb_spec x maxNumber) as [Hlt | Hge]; [ | lia].
    unfold bind at 1. unfold codec_Write at 1.
    destruct (serialize_Write W h file (int_add start wrote)
                [Some x; Some (F1_Calculate W f1 x); Some k])
      as [n [e | ]] eqn:Ew; cbn [fst snd].
    + eexists (_, Some e), [_]. split; [reflexivity | ].
      split; [ | discriminate].
      intros Hnf. specialize (Hnf h file (int_add start wrote)
                                [Some x; Some (F1_Calculate W f1 x); Some k]).
      rewrite Ew in Hnf. discriminate Hnf.
    + assert (Hx1 : u64_add x 1 = x + 1).
      { unfold u64_add. apply to_u64_small. lia. }
      rewrite Hx1.
      destruct (IH (x + 1) (int_add wrote n)
                  (h ++ [SerializeWrite file (int_add start wrote)
                           [Some x; Some (F1_Calculate W f1 x); Some k] n None]))
        as (r & ev & Hrun & Hsucc & Hok); [lia | lia | ].
      exists r, (SerializeWrite file (int_add start wrote)
                   [Some x; Some (F1_Calculate W f1 x); Some k] n None :: ev).
      split; [rewrite Hrun, <- app_assoc; reflexivity | ].
      split; [exact Hsucc | ].
      intros Hnone. destruct (Hok Hnone) as (ns & Hlen & Hev & Hr & Hb).
      exists (n :: ns). cbn [length entry_events_int].
      split; [now rewrite Hlen | ].
      split; [now rewrite Hev | ].
      split; [exact Hr | ].
      intros B HB. constructor; [ | now apply Hb].
      pose proof (HB h file (int_add start wrote) x (F1_Calculate W f1 x)) as Hn.
      rewrite Ew in Hn. exact Hn.
Qed.

(** While nothing wraps around, the offsets and the count the code
    computes are the plain sums. *)
Lemma entry_events_int_exact (f1 : F1 W) (file : File) (k start B : Z)
    (ns : list Z) :
  0 <= start ->
  Forall (fun n => 0 <= n <= B) ns ->
  forall wrote x,
    0 <= wrote ->
    start + wrote + Z.of_nat (length ns) * B < 2 ^ 63 ->
    entry_events_int W f1 file k start wrote x ns
    = entry_events W f1 file k (start + wrote) x ns /\
    int_sum wrote ns = wrote + sum ns.
Proof.
  intros Hstart Hns.
  induction Hns as [ | n ns Hn Hns IH]; intros wrote x Hw Hfit.
  - cbn. split; [reflexivity | lia].
  - cbn [length] in Hfit.
    assert (HB : 0 <= B) by lia.
    assert (Hrest : 0 <= Z.of_nat (length ns) * B) by nia.
    assert (Hoff : int_add start wrote = start + wrote).
    { unfold int_add. apply to_int_small. nia. }
    assert (Hw1 : int_add wrote n = wrote + n).
    { unfold int_add. apply to_int_small. nia. }
    destruct (IH (wrote + n) (x + 1)) as (Hev & Hsum); [lia | nia | ].
    cbn [entry_events_int entry_events int_sum fold_left sum fold_right].
    rewrite Hoff, Hw1. split.
    + f_equal. rewrite Hev. f_equal. lia.
    + unfold int_sum in Hsum. rewrite Hsum. unfold sum. lia.
Qed.

Lemma entry_events_int_codec_writes (f1 : F1 W) (file : File) (k start : Z)
    (ns : list Z) (tl : Hist) :
  forall wrote x,
    length (codec_writes (entry_events_int W f1 file k start wrote x ns ++ tl))
    = (length ns + length (codec_writes tl))%nat.
Proof.
  induction ns as [ | n ns IH]; intros wrote x; [reflexivity | ].
  cbn. now rewrite IH.
Qed.

(** [WriteFirstTable] for an entry count that fits a [uint64]: it returns;
    it returns nil when [NewF1] and every write succeed; and when it
    returns nil it has written the records of [x = 0, 1, ...], as many as
    the entry count, and then the sentinel. *)
Lemma WriteFirstTable_run (file : File) (k start : Z) (id : list byte) (h : Hist) :
  0 <= pow2_u64 W k < 2 ^ 64 ->
  exists r ev,
    WriteFirstTable W file k start id h = (Val r, h ++ ev) /\
    ((exists f1, NewF1 W k id = inr f1) -> writes_never_fail W -> snd r = None) /\
    (snd r = None ->
     exists f1 ns n_eot,
       NewF1 W k id = inr f1 /\
       length ns = Z.to_nat (pow2_u64 W k) /\
       ev = entry_events_int W f1 file k start 0 0 ns
            ++ [FileWrite file (serialize_EOT W) n_eot None] /\
       fst r = int_sum 0 ns /\
       (forall B, record_bound W k B -> Forall (fun n => 0 <= n <= B) ns)).
Proof.
  intros Hmax. unfold WriteFirstTable.
  destruct (NewF1 W k id) as [e | f1].
  { exists (0, Some e), []. rewrite app_nil_r.
    split; [reflexivity | ].
    split; [intros (f1 & Hf1) _; discriminate | discriminate]. }
  destruct (first_table_loop_events f1 file k start (pow2_u64 W k) (proj2 Hmax)
              (Z.to_nat (pow2_u64 W k)) 0 0 h)
    as ([wrote err] & ev & Hrun & Hsucc & Hok); [lia | lia | ].
  cbn [fst snd] in *.
  unfold bind at 1. rewrite Hrun.
  destruct err as [e | ].
  { exists (wrote, Some e), ev. split; [reflexivity | ].
    split; [ | discriminate].
    intros _ [Hcodec _]. specialize (Hsucc Hcodec). discriminate. }
  destruct (Hok eq_refl) as (ns & Hlen & Hev & Hw & Hb).
  unfold bind, file_Write.
  destruct (afero_Write W (h ++ ev) file (serialize_EOT W)) as [n_eot [e | ]]
    eqn:Eeot; cbn [fst snd ret].
  - eexists (wrote, Some e), (ev ++ [_]).
    split; [rewrite app_assoc; reflexivity | ].
    split; [ | discriminate].
    intros _ [_ Hfile]. specialize (Hfile (h ++ ev) file (serialize_EOT W)).
    rewrite Eeot in Hfile. discriminate Hfile.
  - eexists (wrote, None), (ev ++ [_]).
    split; [rewrite app_assoc; reflexivity | ].
    split; [reflexivity | ].
    intros _. exists f1, ns, n_eot. rewrite Hev. auto.
Qed.

(** C8, as the code has it: for [k <= 63] [WriteFirstTable] returns, and
    it returns a nil error when [NewF1] and every write succeed.  A call
    that returns nil has made exactly [2^k] successful codec writes ([2^k]
    is 0 for a negative [k]), the [x]-th one of the record [(x, F1(x))],
    for [x = 0, 1, ...] in this order, each at [start] plus the bytes
    counted so far; after them one write of the end-of-table sentinel; and
    the count returned is the sum of the record sizes, the sentinel not
    included.  The offsets and the sum are computed in [int]; when the
    records take at most [B] bytes and [start + 2^k * B] is below [2^63]
    they are the exact offsets and the exact total. *)
Theorem WriteFirstTable_writes_every_x
    (file : File) (k start : Z) (id : list byte) (h : Hist) :
  k <= 63 ->
  exists r ev,
    WriteFirstTable W file k start id h = (Val r, h ++ ev) /\
    ((exists f1, NewF1 W k id = inr f1) -> writes_never_fail W -> snd r = None) /\
    (snd r = None ->
     exists f1 ns n_eot,
       NewF1 W k id = inr f1 /\
       Z.of_nat (length ns) = 2 ^ k /\
       ev = entry_events_int W f1 file k start 0 0 ns
            ++ [FileWrite file (serialize_EOT W) n_eot None] /\
       fst r = int_sum 0 ns /\
       (forall B,
          record_bound W k B -> 0 <= start -> start + 2 ^ k * B < 2 ^ 63 ->
          ev = entry_events W f1 file k start 0 ns
               ++ [FileWrite file (serialize_EOT W) n_eot None] /\
          fst r = sum ns)).
Proof.
  intros Hk.
  assert (Hpow : pow2_u64 W k = 2 ^ k).
  { unfold pow2_u64. destruct (Z.leb_spec k 63); [reflexivity | lia]. }
  assert (Hpos : 0 <= 2 ^ k) by (apply Z.pow_nonneg; lia).
  assert (Hmax : 2 ^ k <= 2 ^ 63).
  { destruct (Z.lt_ge_cases k 0) as [Hneg | Hnn].
    - rewrite Z.pow_neg_r by assumption. lia.
    - apply Z.pow_le_mono_r; lia. }
  destruct (WriteFirstTable_run file k start id h) as (r & ev & Hrun & Hsucc & Hok).
  { rewrite Hpow. lia. }
  exists r, ev. split; [exact Hrun | ]. split; [exact Hsucc | ].
  intros Hnone. destruct (Hok Hnone) as (f1 & ns & n_eot & Hf1 & Hlen & Hev & Hr & Hb).
  rewrite Hpow in Hlen.
  assert (Hcount : Z.of_nat (length ns) = 2 ^ k) by lia.
  exists f1, ns, n_eot.
  split; [exact Hf1 | ]. split; [exact Hcount | ]. split; [exact Hev | ].
  split; [exact Hr | ].
  intros B HB Hstart Hfit.
  destruct (entry_events_int_exact f1 file k start B ns Hstart (Hb B HB) 0 0)
    as (Hexact & Hsum); [lia | rewrite Hcount; lia | ].
  rewrite Hev, Hr, Hexact, Hsum, Z.add_0_r. split; [reflexivity | lia].
Qed.

End FirstTableProperties.

(** C8 as stated fails for [k = 64]: [uint64(math.Pow(2, 64))] is below
    [2^64] ([2^63] on amd64), and a call in which nothing fails returns nil
    after [2^63] records, not [2^64]. *)
Lemma WriteFirstTable_k64_writes_fewer_entries :
  Plot.pow2_u64 Fixture.plot_world 64 = 2 ^ 63 /\
  exists r ev,
    Plot.WriteFirstTable Fixture.plot_world "plot"%string 64 54 Fixture.plot_id []
    = (Plot.Val r, ev) /\
    snd r = None /\
    Z.of_nat (length (Plot.codec_writes ev)) = 2 ^ 63 /\
    Z.of_nat (length (Plot.codec_writes ev)) <> 2 ^ 64.
Proof.
  assert (Hpow : Plot.pow2_u64 Fixture.plot_world 64 = 2 ^ 63) by reflexivity.
  split; [exact Hpow | ].
  destruct (WriteFirstTable_run Fixture.plot_world "plot"%string 64 54
              Fixture.plot_id [])
    as (r & ev & Hrun & Hsucc & Hok).
  { rewrite Hpow. lia. }
  assert (Hnone : snd r = None).
  { apply Hsucc.
    - exists tt. reflexivity.
    - split; intros; reflexivity. }
  destruct (Hok Hnone) as (f1 & ns & n_eot & _ & Hlen & Hev & _).
  exists r, ev. split; [exact Hrun | ]. split; [exact Hnone | ].
  assert (Hcount : Z.of_nat (length (Plot.codec_writes ev)) = 2 ^ 63).
  { rewrite Hev, entry_events_int_codec_writes, Hlen, Hpow.
    change (length (Plot.codec_writes
                      [Plot.FileWrite "plot"%string
                         (Plot.serialize_EOT Fixture.plot_world) n_eot None]))
      with 0%nat.
    rewrite Nat.add_0_r, Z2Nat.id; lia. }
  split; [exact Hcount | ]. rewrite Hcount. lia.
Qed.

Lemma WriteFirstTable_writes_every_x_witness :
  exists r ev,
    Plot.WriteFirstTable Fixture.plot_world "plot"%string 2 54 Fixture.plot_id []
    = (Plot.Val r, [] ++ ev) /\
    snd r = None /\
    exists f1 ns n_eot,
      Plot.NewF1 Fixture.plot_world 2 Fixture.plot_id = inr f1 /\
      Z.of_nat (length ns) = 2 ^ 2 /\
      ev = Plot.entry_events Fixture.plot_world f1 "plot"%string 2 54 0 ns
           ++ [Plot.FileWrite "plot"%string
                 (Plot.serialize_EOT Fixture.plot_world) n_eot None] /\
      fst r = Plot.sum ns.
Proof.
  destruct (WriteFirstTable_writes_every_x Fixture.plot_world "plot"%string 2 54
              Fixture.plot_id []) as (r & ev & Hrun & Hsucc & Hok); [lia | ].
  assert (Hnone : snd r = None).
  { apply Hsucc.
    - exists tt. reflexivity.
    - split; intros; reflexivity. }
  destruct (Hok Hnone) as (f1 & ns & n_eot & Hf1 & Hlen & _ & _ & Hexact).
  destruct (Hexact 6) as (Hev & Hr).
  - intros hh file offset x f1x. change (0 <= 6 <= 6). lia.
  - lia.
  - lia.
  - exists r, ev. split; [exact Hrun | ]. split; [exact Hnone | ].
    exists f1, ns, n_eot. auto.
Defined.

(** * Properties of [WriteTable] *)

Section TableProperties.

Import Plot.

Variable W : World.

Lemma write_matches_file_writes (file : File) (k t currentStart : Z) (fx : FxT W)
    (ms : list Match) :
  forall (written : Z) (h : Hist),
    file_writes (snd (write_matches W file k t currentStart fx ms written h))
    = file_writes h.
Proof.
  induction ms as [ | m ms IH]; intros written h; cbn [write_matches].
  - reflexivity.
  - destruct (Fx_Calculate W fx t (Left m) (LeftMetadata m) (RightMetadata m));
      [reflexivity | ].
    destruct (Collate W t (to_u64 k) (LeftMetadata m) (RightMetadata m));
      [reflexivity | ].
    unfold bind at 1. unfold codec_Write at 1.
    destruct (serialize_Write W h file _ _) as [w [e | ]]; cbn [fst snd ret].
    + rewrite file_writes_app. cbn. apply app_nil_r.
    + rewrite IH, file_writes_app. cbn. apply app_nil_r.
Qed.

Lemma classify_file_writes (file : File) (k t currentStart : Z) (fx : FxT W)
    (st : TableState) (leftEntry : Entry) (h : Hist) :
  file_writes (snd (classify W file k t currentStart fx st leftEntry h))
  = file_writes h.
Proof.
  unfold classify.
  destruct (_ =? bucketID st); [reflexivity | ].
  destruct (_ =? u64_add (bucketID st) 1); [reflexivity | ].
  unfold bind.
  destruct (nonempty (leftBucket st) && nonempty (rightBucket st)).
  - pose proof (write_matches_file_writes file k t currentStart fx
                  (FindMatches W (leftBucket st) (rightBucket st))
                  (written st) h) as Hm.
    destruct (write_matches W file k t currentStart fx _ (written st) h)
      as [[[written' [e | ]] | msg | ] h']; cbn [snd] in *; try exact Hm.
    destruct (_ =? u64_add (bucketID st) 2); exact Hm.
  - cbn [ret]. destruct (_ =? u64_add (bucketID st) 2); reflexivity.
Qed.

Lemma table_step_file_writes
    (file : File) (k t previousStart currentStart entryLen : Z) (fx : FxT W)
    (st : TableState) (h : Hist) :
  file_writes
    (snd (table_step W file k t previousStart currentStart entryLen fx st h))
  = file_writes h.
Proof.
  unfold table_step, bind. unfold codec_Read at 1.
  destruct (serialize_Read W h file _ entryLen k) as [[leftEntry bytesRead] err];
    cbn [fst snd].
  assert (Hread : forall e, file_writes (h ++ [e]) = file_writes h ++ file_writes [e])
    by (intros; apply file_writes_app).
  destruct err as [e | ].
  - destruct (is_EOTErr e || is_EOF e); cbn [ret snd];
      rewrite Hread; cbn; apply app_nil_r.
  - rewrite classify_file_writes, Hread. cbn. apply app_nil_r.
Qed.

Lemma table_loop_file_writes
    (file : File) (k t previousStart currentStart entryLen : Z) (fx : FxT W)
    (fuel : nat) :
  forall (st : TableState) (h : Hist),
    file_writes
      (snd (table_loop W file k t previousStart currentStart entryLen fx fuel st h))
    = file_writes h.
Proof.
  induction fuel as [ | fuel IH]; intros st h; cbn [table_loop].
  - reflexivity.
  - unfold bind.
    pose proof (table_step_file_writes file k t previousStart currentStart
                  entryLen fx st h) as Hs.
    destruct (table_step W file k t previousStart currentStart entryLen fx st h)
      as [[[st' | st' | r] | msg | ] h']; cbn [snd ret] in *; try exact Hs.
    rewrite IH. exact Hs.
Qed.

(** [WriteTable] never calls [file.Write]: whatever the previous table
    holds and however the pass ends, it writes no end-of-table sentinel. *)
Lemma WriteTable_file_writes
    (fuel : nat) (file : File) (k t previousStart currentStart entryLen : Z)
    (fx : FxT W) (h : Hist) :
  file_writes
    (snd (WriteTable W fuel file k t previousStart currentStart entryLen fx h))
  = file_writes h.
Proof.
  unfold WriteTable, bind, mark.
  pose proof (table_loop_file_writes file k t previousStart currentStart
                entryLen fx fuel initial_state
                (h ++ [EnterWriteTable t previousStart currentStart entryLen]))
    as Hl.
  rewrite file_writes_app in Hl. cbn in Hl. rewrite app_nil_r in Hl.
  destruct (table_loop W file k t previousStart currentStart entryLen fx fuel
              initial_state _) as [[[st [r | ]] | msg | ] h'];
    cbn [snd ret] in *; exact Hl.
Qed.

(** In the default branch of the [switch] the entry that was just read
    goes into neither bucket: the right bucket comes out empty and the left
    one is the old right bucket or empty. *)
Lemma classify_default_forgets_entry
    (file : File) (k t currentStart : Z) (fx : FxT W)
    (st : TableState) (leftEntry : Entry) (h : Hist) :
  parameters_BucketID W (Fx leftEntry) <> bucketID st ->
  parameters_BucketID W (Fx leftEntry) <> u64_add (bucketID st) 1 ->
  match fst (classify W file k t currentStart fx st leftEntry h) with
  | Val (Next st') =>
      rightBucket st' = [] /\
      (leftBucket st' = rightBucket st \/ leftBucket st' = [])
  | Val (Break _) => False
  | _ => True
  end.
Proof.
  intros H0 H1. unfold classify.
  destruct (Z.eqb_spec (parameters_BucketID W (Fx leftEntry)) (bucketID st));
    [contradiction | ].
  destruct (Z.eqb_spec (parameters_BucketID W (Fx leftEntry))
              (u64_add (bucketID st) 1)); [contradiction | ].
  unfold bind.
  destruct (nonempty (leftBucket st) && nonempty (rightBucket st)).
  - destruct (write_matches W file k t currentStart fx _ (written st) h)
      as [[[written' [e | ]] | msg | ] h']; cbn [fst ret]; try exact I.
    destruct (_ =? u64_add (bucketID st) 2); cbn; auto.
  - cbn [ret fst]. destruct (_ =? u64_add (bucketID st) 2); cbn; auto.
Qed.

End TableProperties.

(** C1 (flush at the end of the stream): when the read at the top of the
    loop returns the end-of-table error or [io.EOF], the loop is left in
    the state it was in, whatever the two buckets hold, with the read as
    its only call.  So on a previous table of two non-empty adjacent
    buckets (bucket ids 0, 0, 1, 1) and nothing else, the loop ends with
    both buckets filled, the matcher has four matches for them, and
    [WriteTable] returns [(0, nil)] without a single codec write. *)
Theorem WriteTable_last_bucket_pair_not_matched :
  (forall W file k t previousStart currentStart entryLen fx fuel st h,
     let offset := int_add previousStart (Plot.read st) in
     let r := Plot.serialize_Read W h file offset entryLen k in
     match snd r with
     | Some e =>
         if is_EOTErr e || is_EOF e then
           Plot.table_loop W file k t previousStart currentStart entryLen fx
             (S fuel) st h
           = (Plot.Val (st, None),
              h ++ [Plot.SerializeRead file offset entryLen k
                      (fst (fst r)) (snd (fst r)) (Some e)])
         else True
     | None => True
     end) /\
  (let W := Fixture.world 0 [0; 0; 1; 1] in
   let entry i fx := {| Plot.Fx := fx; Plot.Index := i; Plot.Rest := [] |} in
   let left := [entry 0 0; entry 1 0] in
   let right := [entry 2 1; entry 3 1] in
   fst (Plot.table_loop W "plot"%string 2 2 0 100 6 tt 10 Plot.initial_state [])
   = Plot.Val ({| Plot.read := 24; Plot.written := 0; Plot.bucketID := 0;
                  Plot.leftBucket := left; Plot.rightBucket := right;
                  Plot.index := 4 |}, None) /\
   length (Plot.FindMatches W left right) = 4%nat /\
   fst (Plot.WriteTable W 10 "plot"%string 2 2 0 100 6 tt []) = Plot.Val (0, None) /\
   Plot.codec_writes (snd (Plot.WriteTable W 10 "plot"%string 2 2 0 100 6 tt [])) = []).
Proof.
  split; [ | vm_compute; repeat split].
  intros W file k t previousStart currentStart entryLen fx fuel st h offset r.
  destruct (snd r) as [e | ] eqn:Herr; [ | exact I].
  destruct (is_EOTErr e || is_EOF e) eqn:Hend; [ | exact I].
  cbn [Plot.table_loop]. unfold Plot.bind at 1, Plot.table_step.
  unfold Plot.bind at 1, Plot.codec_Read. fold offset. fold r.
  destruct r as [[leftEntry bytesRead] err]. cbn [fst snd] in *. subst err.
  rewrite Hend. reflexivity.
Qed.

(** C5 (the entry that triggers the default branch): when the bucket id
    of the entry just read is neither [bucketID] nor [bucketID + 1], the
    [switch] leaves the right bucket empty and the left bucket equal to
    the old right bucket or empty: the entry goes into neither.  With
    bucket 0 on the left and bucket 1 on the right, an entry of bucket 2
    slides the window and an entry of bucket 9 resets it, both without
    keeping the entry; on the bucket ids 0, 1, 2, 3, 9 the pass therefore
    writes the match of buckets 0 and 1 only. *)
Theorem WriteTable_triggering_entry_dropped :
  (forall W file k t currentStart fx st leftEntry h,
     let id := Plot.parameters_BucketID W (Plot.Fx leftEntry) in
     if (id =? Plot.bucketID st) || (id =? u64_add (Plot.bucketID st) 1) then True
     else
       match fst (Plot.classify W file k t currentStart fx st leftEntry h) with
       | Plot.Val (Plot.Next st') =>
           Plot.rightBucket st' = [] /\
           (Plot.leftBucket st' = Plot.rightBucket st \/ Plot.leftBucket st' = [])
       | Plot.Val (Plot.Break _) => False
       | _ => True
       end) /\
  (let W := Fixture.world 0 [0; 1; 2; 3; 9] in
   let entry i fx := {| Plot.Fx := fx; Plot.Index := i; Plot.Rest := [] |} in
   let st := {| Plot.read := 18; Plot.written := 0; Plot.bucketID := 0;
                Plot.leftBucket := [entry 0 0]; Plot.rightBucket := [entry 1 1];
                Plot.index := 2 |} in
   fst (Plot.classify W "plot"%string 2 2 100 tt st (entry 2 2) [])
   = Plot.Val (Plot.Next {| Plot.read := 18; Plot.written := 6; Plot.bucketID := 1;
                            Plot.leftBucket := [entry 1 1]; Plot.rightBucket := [];
                            Plot.index := 3 |}) /\
   fst (Plot.classify W "plot"%string 2 2 100 tt st (entry 2 9) [])
   = Plot.Val (Plot.Next {| Plot.read := 18; Plot.written := 6; Plot.bucketID := 9;
                            Plot.leftBucket := []; Plot.rightBucket := [];
                            Plot.index := 3 |}) /\
   fst (Plot.WriteTable W 10 "plot"%string 2 2 0 100 6 tt []) = Plot.Val (6, None) /\
   Plot.codec_writes (snd (Plot.WriteTable W 10 "plot"%string 2 2 0 100 6 tt []))
   = [(100, [Some 1; None; None; None; Some 1; Some 2])]).
Proof.
  split; [ | vm_compute; repeat split].
  intros W file k t currentStart fx st leftEntry h id.
  destruct (Z.eqb_spec id (Plot.bucketID st)) as [ | H0]; [exact I | ].
  destruct (Z.eqb_spec id (u64_add (Plot.bucketID st) 1)) as [ | H1]; [exact I | ].
  cbn [orb].
  exact (classify_default_forgets_entry W file k t currentStart fx st leftEntry h
           H0 H1).
Qed.


Section EntryLength.

Import Plot.

Variable W : World.

(** C7, as the code has it: the entry length is the truncated quotient of
    the bytes written by [2^k], computed without any test of the
    remainder.  After table 1 it is what [sort.OnDisk] and the pass for
    table 2 receive; after that pass the quotient of its byte count is
    stored the same way, and when the pass returns a nil error so does
    [WritePlotFile], whether or not either division was exact. *)
Theorem entry_length_is_truncated_quotient
    (fuel : nat) (file : File) (spare : option File)
    (k availableMemory : Z) (id : list byte) (headerLen wrote : Z) (h : Hist) :
  pow2_int W k <> 0 ->
  let maxNumber := pow2_int W k in
  let entryLen := to_int (Z.quot wrote maxNumber) in
  let err := sort_OnDisk W h file spare headerLen (int_add wrote headerLen)
               availableMemory entryLen maxNumber k in
  let h1 := h ++ [SortOnDisk file spare headerLen (int_add wrote headerLen)
                    availableMemory entryLen maxNumber k err] in
  (forall e, err = Some e ->
     sort_and_build W fuel file spare k availableMemory id headerLen wrote h
     = (Val (Some e), h1)) /\
  (err = None ->
   forall fx, NewFx W (to_u64 k) id = inr fx ->
   forall wrote2 h2,
     WriteTable W fuel file k 2 headerLen (int_add headerLen wrote) entryLen fx h1
     = (Val (wrote2, None), h2) ->
     tables_body W fuel file k maxNumber fx 2
       {| previousStart := headerLen;
          currentStart := int_add headerLen wrote;
          entryLen := entryLen |} h1
     = (Val (Break {| previousStart := int_add headerLen wrote2;
                      currentStart := int_add (int_add headerLen wrote) wrote2;
                      entryLen := to_int (Z.quot wrote2 maxNumber) |}), h2) /\
     sort_and_build W fuel file spare k availableMemory id headerLen wrote h
     = (Val None, h2)).
Proof.
  intros Hmax maxNumber entryLen0 err h1.
  assert (Hdiv : forall a hh, int_div a maxNumber hh
                              = (Val (to_int (Z.quot a maxNumber)), hh)).
  { intros a hh. unfold int_div.
    destruct (Z.eqb_spec maxNumber 0) as [Hz | _]; [contradiction | reflexivity]. }
  assert (Hsort : disk_sort W file spare headerLen (int_add wrote headerLen)
                    availableMemory entryLen0 maxNumber k h = (Val err, h1))
    by reflexivity.
  split.
  - intros e He. unfold sort_and_build. fold maxNumber.
    unfold bind at 1. rewrite Hdiv. fold entryLen0.
    unfold bind at 1. rewrite Hsort, He. reflexivity.
  - intros He fx Hfx wrote2 h2 Hpass.
    assert (Hbody :
      tables_body W fuel file k maxNumber fx 2
        {| previousStart := headerLen;
           currentStart := int_add headerLen wrote;
           entryLen := entryLen0 |} h1
      = (Val (Break {| previousStart := int_add headerLen wrote2;
                       currentStart := int_add (int_add headerLen wrote) wrote2;
                       entryLen := to_int (Z.quot wrote2 maxNumber) |}), h2)).
    { unfold tables_body. cbn [previousStart currentStart entryLen].
      unfold bind at 1. rewrite Hpass.
      unfold bind at 1. rewrite Hdiv. reflexivity. }
    split; [exact Hbody | ].
    unfold sort_and_build. fold maxNumber.
    unfold bind at 1. rewrite Hdiv. fold entryLen0.
    unfold bind at 1. rewrite Hsort, He, Hfx.
    unfold bind at 1.
    change (tables_loop W fuel file k maxNumber fx 6 2 ?v h1)
      with (bind (tables_body W fuel file k maxNumber fx 2 v)
              (fun fl =>
                 match fl with
                 | Next v' => tables_loop W fuel file k maxNumber fx 5 (int_add 2 1) v'
                 | Break v' => ret (v', None)
                 | Return e => ret (v, Some e)
                 end) h1).
    unfold bind at 1. rewrite Hbody. reflexivity.
Qed.

End EntryLength.

(** C7 as stated fails: for [k = 2] the pass for table 2 returns 6 bytes
    written, which is not a multiple of [2^2]; the entry length becomes
    [6 / 4 = 1] and [WritePlotFile] returns nil. *)
Lemma WritePlotFile_floors_entry_length :
  let W := Fixture.plot_world in
  fst (Plot.WriteTable W 10 "plot"%string 2 2 54 78 6 tt []) = Plot.Val (6, None) /\
  6 mod 2 ^ 2 <> 0 /\
  fst (Plot.tables_body W 10 "plot"%string 2 4 tt 2
         {| Plot.previousStart := 54; Plot.currentStart := 78; Plot.entryLen := 6 |} [])
  = Plot.Val (Plot.Break {| Plot.previousStart := 60; Plot.currentStart := 84;
                            Plot.entryLen := 1 |}) /\
  fst (Plot.WritePlotFile W 10 "plot"%string 2 1000 [] Fixture.plot_id [])
  = Plot.Val None.
Proof. vm_compute. repeat split; discriminate. Qed.

Lemma entry_length_is_truncated_quotient_witness :
  fst (Plot.sort_and_build Fixture.plot_world 10 "plot"%string None 2 1000
         Fixture.plot_id 54 24 [])
  = Plot.Val None.
Proof.
  destruct (entry_length_is_truncated_quotient Fixture.plot_world 10
              "plot"%string None 2 1000 Fixture.plot_id 54 24 []) as [_ H].
  - vm_compute. discriminate.
  - edestruct (H eq_refl tt eq_refl 6) as [_ Hrun].
    + vm_compute. reflexivity.
    + rewrite Hrun. reflexivity.
Defined.

(** * Properties of [WritePlotFile] *)

Section PipelineShape.

Import Plot.

Variable W : World.

Lemma quietly_ret {A} (a : A) : extends_quietly (ret a).
Proof. intros h. exists []. split; [symmetry; apply app_nil_r | constructor]. Qed.

Lemma quietly_panic {A} (msg : string) : extends_quietly (@panic A msg).
Proof. intros h. exists []. split; [symmetry; apply app_nil_r | constructor]. Qed.

Lemma quietly_out_of_fuel {A} : extends_quietly (@out_of_fuel A).
Proof. intros h. exists []. split; [symmetry; apply app_nil_r | constructor]. Qed.

Lemma quietly_bind {A B} (m : M A) (f : A -> M B) :
  extends_quietly m -> (forall a, extends_quietly (f a)) ->
  extends_quietly (bind m f).
Proof.
  intros Hm Hf h. unfold bind.
  destruct (Hm h) as (ev1 & H1 & Q1).
  destruct (m h) as [[a | msg | ] h1]; cbn [snd] in *; subst h1.
  - destruct (Hf a (h ++ ev1)) as (ev2 & H2 & Q2).
    exists (ev1 ++ ev2). rewrite H2, app_assoc.
    split; [reflexivity | now apply Forall_app].
  - now exists ev1.
  - now exists ev1.
Qed.

Lemma quietly_call {A} (m : M A) :
  (forall h, exists e, snd (m h) = h ++ [e] /\ quiet e = true) ->
  extends_quietly m.
Proof.
  intros H h. destruct (H h) as (e & He & Q).
  exists [e]. split; [exact He | now constructor].
Qed.

Lemma quietly_fs_Create (name : string) : extends_quietly (fs_Create W name).
Proof. apply quietly_call. intros h. eexists. split; reflexivity. Qed.

Lemma quietly_file_Write (file : File) (buf : list byte) :
  extends_quietly (file_Write W file buf).
Proof. apply quietly_call. intros h. eexists. split; reflexivity. Qed.

Lemma quietly_codec_Write (file : File) (offset : Z) (args : list (option Z)) :
  extends_quietly (codec_Write W file offset args).
Proof. apply quietly_call. intros h. eexists. split; reflexivity. Qed.

Lemma quietly_codec_Read (file : File) (offset entryLen k : Z) :
  extends_quietly (codec_Read W file offset entryLen k).
Proof. apply quietly_call. intros h. eexists. split; reflexivity. Qed.

Lemma quietly_int_div (a b : Z) : extends_quietly (int_div a b).
Proof.
  unfold int_div. destruct (b =? 0); [apply quietly_panic | apply quietly_ret].
Qed.

Create HintDb quietly.
#[local] Hint Resolve quietly_fs_Create quietly_file_Write quietly_codec_Write
  quietly_codec_Read quietly_int_div : quietly.

(** Walks through a computation: binds, branches and the calls above. *)
Ltac quietly :=
  repeat first
    [ apply quietly_ret
    | apply quietly_panic
    | apply quietly_out_of_fuel
    | solve [auto with quietly]
    | apply quietly_bind; [ | intros ? ]
    | match goal with
      | |- extends_quietly (match ?x with _ => _ end) => destruct x
      | |- extends_quietly (if ?b then _ else _) => destruct b
      end ].

Lemma quietly_WriteHeader (file : File) (k : Z) (memo id : list byte) :
  extends_quietly (WriteHeader W file k memo id).
Proof. unfold WriteHeader. quietly. Qed.
#[local] Hint Resolve quietly_WriteHeader : quietly.

Lemma quietly_first_table_loop (f1 : F1 W) (file : File) (k start maxNumber : Z)
    (fuel : nat) :
  forall x wrote,
    extends_quietly (first_table_loop W f1 file k start maxNumber fuel x wrote).
Proof.
  induction fuel as [ | fuel IH]; intros x wrote; cbn [first_table_loop]; quietly.
Qed.
#[local] Hint Resolve quietly_first_table_loop : quietly.

Lemma quietly_WriteFirstTable (file : File) (k start : Z) (id : list byte) :
  extends_quietly (WriteFirstTable W file k start id).
Proof.
  unfold WriteFirstTable. destruct (NewF1 W k id); quietly.
Qed.
#[local] Hint Resolve quietly_WriteFirstTable : quietly.

Lemma quietly_write_matches (file : File) (k t currentStart : Z) (fx : FxT W)
    (ms : list Match) :
  forall written,
    extends_quietly (write_matches W file k t currentStart fx ms written).
Proof.
  induction ms as [ | m ms IH]; intros written; cbn [write_matches]; quietly.
Qed.
#[local] Hint Resolve quietly_write_matches : quietly.

Lemma quietly_table_step
    (file : File) (k t previousStart currentStart entryLen : Z) (fx : FxT W)
    (st : TableState) :
  extends_quietly
    (table_step W file k t previousStart currentStart entryLen fx st).
Proof.
  unfold table_step, classify. quietly.
Qed.
#[local] Hint Resolve quietly_table_step : quietly.

Lemma quietly_table_loop
    (file : File) (k t previousStart currentStart entryLen : Z) (fx : FxT W)
    (fuel : nat) :
  forall st,
    extends_quietly
      (table_loop W file k t previousStart currentStart entryLen fx fuel st).
Proof.
  induction fuel as [ | fuel IH]; intros st; cbn [table_loop]; quietly.
Qed.
#[local] Hint Resolve quietly_table_loop : quietly.

Lemma WriteTable_one_pass
    (fuel : nat) (file : File) (k t previousStart currentStart entryLen : Z)
    (fx : FxT W) (h : Hist) :
  exists ev,
    snd (WriteTable W fuel file k t previousStart currentStart entryLen fx h)
    = h ++ ev /\ one_pass t ev.
Proof.
  unfold WriteTable, bind, mark.
  destruct (quietly_table_loop file k t previousStart currentStart entryLen fx
              fuel initial_state
              (h ++ [EnterWriteTable t previousStart currentStart entryLen]))
    as (q & Hq & Q).
  exists (EnterWriteTable t previousStart currentStart entryLen :: q).
  split.
  - destruct (table_loop W file k t previousStart currentStart entryLen fx fuel
                initial_state _) as [[[st [r | ]] | msg | ] h'];
      cbn [snd ret] in *; subst h'; rewrite <- app_assoc; reflexivity.
  - now exists previousStart, currentStart, entryLen, q.
Qed.

(** The body of the table loop makes one pass and never asks for a
    further iteration: it ends in [return err] or in [break]. *)
Lemma tables_body_one_pass
    (fuel : nat) (file : File) (k maxNumber : Z) (fx : FxT W) (t : Z)
    (v : Offsets) (h : Hist) :
  (exists ev,
     snd (tables_body W fuel file k maxNumber fx t v h) = h ++ ev /\
     one_pass t ev) /\
  (forall v', fst (tables_body W fuel file k maxNumber fx t v h) <> Val (Next v')).
Proof.
  unfold tables_body, bind.
  destruct (WriteTable_one_pass fuel file k t (previousStart v) (currentStart v)
              (entryLen v) fx h) as (ev & Hev & Hp).
  destruct (WriteTable W fuel file k t (previousStart v) (currentStart v)
              (entryLen v) fx h) as [[[wrote [e | ]] | msg | ] h'];
    cbn [fst snd ret] in *; subst h'.
  - split; [now exists ev | discriminate].
  - unfold int_div. destruct (maxNumber =? 0); cbn [fst snd panic ret];
      (split; [now exists ev | discriminate]).
  - split; [now exists ev | discriminate].
  - split; [now exists ev | discriminate].
Qed.

Lemma tables_loop_one_pass
    (fuel : nat) (file : File) (k maxNumber : Z) (fx : FxT W) (n : nat)
    (v : Offsets) (h : Hist) :
  exists ev,
    snd (tables_loop W fuel file k maxNumber fx (S n) 2 v h) = h ++ ev /\
    one_pass 2 ev.
Proof.
  cbn [tables_loop Z.leb Z.compare Pos.compare Pos.compare_cont]. unfold bind.
  destruct (tables_body_one_pass fuel file k maxNumber fx 2 v h)
    as [(ev & Hev & Hp) Hnext].
  destruct (tables_body W fuel file k maxNumber fx 2 v h)
    as [[[v' | v' | e] | msg | ] h']; cbn [fst snd ret] in *.
  - now contradiction (Hnext v').
  - now exists ev.
  - now exists ev.
  - now exists ev.
  - now exists ev.
Qed.

Lemma sort_and_build_shape
    (fuel : nat) (file : File) (spare : option File) (k availableMemory : Z)
    (id : list byte) (headerLen wrote : Z) (h : Hist) :
  exists ev,
    snd (sort_and_build W fuel file spare k availableMemory id headerLen wrote h)
    = h ++ ev /\ sort_then_pass ev.
Proof.
  unfold sort_and_build, bind at 1, int_div.
  destruct (pow2_int W k =? 0).
  { exists []. split; [symmetry; apply app_nil_r | now left]. }
  cbn [ret]. unfold bind at 1, disk_sort.
  set (s := SortOnDisk _ _ _ _ _ _ _ _ _).
  assert (Hs : is_sort s) by exact I.
  destruct (sort_OnDisk W h file spare _ _ _ _ _ _) as [e | ].
  { exists [s]. split; [reflexivity | right; exists s; auto]. }
  destruct (NewFx W (to_u64 k) id) as [e | fx].
  { exists [s]. split; [reflexivity | right; exists s; auto]. }
  unfold bind.
  match goal with
  | |- context [tables_loop W fuel file k ?m fx 6 2 ?v ?hh] =>
      destruct (tables_loop_one_pass fuel file k m fx 5 v hh) as (p & Hp & P);
      destruct (tables_loop W fuel file k m fx 6 2 v hh)
        as [[[v' err] | msg | ] h']
  end; cbn [snd ret] in *; subst h';
    (exists (s :: p); split;
     [rewrite <- app_assoc; reflexivity | right; exists s; split; eauto]).
Qed.

(** The calls of every run of [WritePlotFile]: quiet ones, then at most
    the sort of table 1 followed by at most one pass, for table 2. *)
Lemma WritePlotFile_shape
    (fuel : nat) (filename : string) (k availableMemory : Z)
    (memo id : list byte) (h : Hist) :
  exists q tl,
    snd (WritePlotFile W fuel filename k availableMemory memo id h)
    = h ++ q ++ tl /\
    Forall (fun e => quiet e = true) q /\ sort_then_pass tl.
Proof.
  assert (Hquiet : forall (m : M (option error)), extends_quietly m ->
            forall hh, exists q tl, snd (m hh) = hh ++ q ++ tl /\
              Forall (fun e => quiet e = true) q /\ sort_then_pass tl).
  { intros m Hm hh. destruct (Hm hh) as (q & Hq & Q).
    exists q, []. rewrite app_nil_r. repeat split; auto. now left. }
  assert (Hbind : forall {A} (m : M A) (f : A -> M (option error)),
            extends_quietly m ->
            (forall a hh, exists q tl, snd (f a hh) = hh ++ q ++ tl /\
               Forall (fun e => quiet e = true) q /\ sort_then_pass tl) ->
            forall hh, exists q tl, snd (bind m f hh) = hh ++ q ++ tl /\
               Forall (fun e => quiet e = true) q /\ sort_then_pass tl).
  { intros A m f Hm Hf hh. unfold bind.
    destruct (Hm hh) as (q1 & H1 & Q1).
    destruct (m hh) as [[a | msg | ] h1]; cbn [snd] in *; subst h1.
    - destruct (Hf a (hh ++ q1)) as (q2 & tl & H2 & Q2 & T).
      exists (q1 ++ q2), tl. rewrite H2, <- !app_assoc.
      repeat split; auto. now apply Forall_app.
    - exists q1, []. rewrite app_nil_r. repeat split; auto. now left.
    - exists q1, []. rewrite app_nil_r. repeat split; auto. now left. }
  unfold WritePlotFile. revert h.
  apply Hbind; [auto with quietly | intros [file [e | ]] ];
    [apply Hquiet, quietly_ret | ].
  apply Hbind; [auto with quietly | intros [headerLen [e | ]] ];
    [apply Hquiet, quietly_ret | ].
  apply Hbind; [auto with quietly | intros [wrote [e | ]] ];
    [apply Hquiet, quietly_ret | ].
  apply Hbind; [quietly | intros [spare [e | ]] ];
    [apply Hquiet, quietly_ret | ].
  intros hh.
  destruct (sort_and_build_shape fuel file spare k availableMemory id
              headerLen wrote hh) as (tl & Htl & T).
  exists [], tl. cbn [app]. repeat split; auto.
Qed.

End PipelineShape.

Section HistoryFacts.

Import Plot.

Lemma entered_tables_app (h1 h2 : Hist) :
  entered_tables (h1 ++ h2) = entered_tables h1 ++ entered_tables h2.
Proof.
  induction h1 as [ | e h1 IH]; [reflexivity | ].
  destruct e; simpl; rewrite IH; reflexivity.
Qed.

Lemma sorted_regions_app (h1 h2 : Hist) :
  sorted_regions (h1 ++ h2) = sorted_regions h1 ++ sorted_regions h2.
Proof.
  induction h1 as [ | e h1 IH]; [reflexivity | ].
  destruct e; simpl; rewrite IH; reflexivity.
Qed.

Lemma quiet_history (q : Hist) :
  Forall (fun e => quiet e = true) q ->
  entered_tables q = [] /\ sorted_regions q = [] /\
  forall t tl, events_after_enter t (q ++ tl) = events_after_enter t tl.
Proof.
  induction 1 as [ | e q He _ (IH1 & IH2 & IH3)]; [now repeat split | ].
  destruct e; try discriminate; now repeat split.
Qed.

Lemma sort_then_pass_history (tl : Hist) :
  sort_then_pass tl ->
  (entered_tables tl = [] \/ entered_tables tl = [2]) /\
  (length (sorted_regions tl) <= 1)%nat /\
  sorted_regions (events_after_enter 2 tl) = [].
Proof.
  intros [-> | (s & Hs & [-> | (p & (ps & cs & el & q & -> & Q) & ->)])].
  - cbn. auto.
  - destruct s; try contradiction. cbn. auto.
  - destruct (quiet_history q Q) as (E & S & _).
    destruct s; try contradiction. cbn. rewrite E, S. auto.
Qed.

End HistoryFacts.

(** C2 (all seven tables): whatever the inputs and the collaborators, a
    run of [WritePlotFile] calls [WriteTable] at most once, for table 2;
    and the run for [k = 2] in which no call fails returns nil after that
    single pass. *)
Theorem WritePlotFile_stops_after_table_2 :
  (forall W fuel filename k availableMemory memo id,
     let run := Plot.WritePlotFile W fuel filename k availableMemory memo id [] in
     Plot.entered_tables (snd run) = [] \/ Plot.entered_tables (snd run) = [2]) /\
  (let run := Plot.WritePlotFile Fixture.plot_world 10 "plot"%string 2 1000 []
                Fixture.plot_id [] in
   fst run = Plot.Val None /\
   Plot.entered_tables (snd run) = [2]).
Proof.
  split; [ | vm_compute; repeat split].
  intros W fuel filename k availableMemory memo id run. subst run.
  destruct (WritePlotFile_shape W fuel filename k availableMemory memo id [])
    as (q & tl & -> & Q & T).
  destruct (quiet_history q Q) as (E & _ & _).
  destruct (sort_then_pass_history tl T) as (Ht & _ & _).
  cbn [app]. rewrite entered_tables_app, E. exact Ht.
Qed.

(** C6 (sort after every pass): whatever the inputs and the
    collaborators, a run of [WritePlotFile] calls [sort.OnDisk] at most
    once and never after the pass for table 2 has started; in the run for
    [k = 2] the one sort is that of the region of table 1 (bytes 54 to
    78), the pass for table 2 writes a record at offset 78, and no sort
    follows. *)
Theorem WritePlotFile_sorts_table_1_only :
  (forall W fuel filename k availableMemory memo id,
     let run := Plot.WritePlotFile W fuel filename k availableMemory memo id [] in
     (length (Plot.sorted_regions (snd run)) <= 1)%nat /\
     Plot.sorted_regions (Plot.events_after_enter 2 (snd run)) = []) /\
  (let run := Plot.WritePlotFile Fixture.plot_world 10 "plot"%string 2 1000 []
                Fixture.plot_id [] in
   fst run = Plot.Val None /\
   Plot.sorted_regions (snd run) = [(54, 78)] /\
   Plot.codec_writes (Plot.events_after_enter 2 (snd run))
   = [(78, [Some 1; None; None; None; Some 1; Some 2])] /\
   Plot.sorted_regions (Plot.events_after_enter 2 (snd run)) = []).
Proof.
  split; [ | vm_compute; repeat split].
  intros W fuel filename k availableMemory memo id run. subst run.
  destruct (WritePlotFile_shape W fuel filename k availableMemory memo id [])
    as (q & tl & -> & Q & T).
  destruct (quiet_history q Q) as (_ & S & A).
  destruct (sort_then_pass_history tl T) as (_ & Hs & Ha).
  cbn [app]. rewrite sorted_regions_app, S, A. cbn [app]. auto.
Qed.

(** C9 (sentinel after every table): [WriteTable] makes no [file.Write],
    whatever its arguments; so the pass that writes a record and returns a
    nil error leaves the derived table without an end-of-table sentinel,
    while [WriteFirstTable] ends table 1 with one. *)
Theorem WriteTable_writes_no_sentinel :
  (forall W fuel file k t previousStart currentStart entryLen fx h,
     Plot.file_writes
       (snd (Plot.WriteTable W fuel file k t previousStart currentStart
               entryLen fx h))
     = Plot.file_writes h) /\
  (let W := Fixture.world 0 [0; 1; 2; 3; 9] in
   fst (Plot.WriteTable W 10 "plot"%string 2 2 0 100 6 tt []) = Plot.Val (6, None) /\
   Plot.file_writes (snd (Plot.WriteTable W 10 "plot"%string 2 2 0 100 6 tt [])) = [] /\
   Plot.file_writes (snd (Plot.WriteFirstTable W "plot"%string 2 54 Fixture.plot_id []))
   = [Plot.serialize_EOT W]).
Proof.
  split; [ | vm_compute; repeat split].
  intros. apply WriteTable_file_writes.
Qed.

(** * Further properties of [At] *)

Section AtCipherCalls.

Import Encrypt.

Variable ConcatBig : Z -> Z -> Z -> Z.
Variable Trunc : Z -> Z -> Z -> Z -> Z.
Variable CollaSize : Z -> error + Z.

Lemma encrypt_nil_total (c : Block) (src : list byte) :
  (forall dst src', Encrypt c dst src' <> None) ->
  encrypt c [] src = ([{| call_dst := []; call_src := src |}], Ok []).
Proof.
  intros Htotal. unfold encrypt. destruct (Encrypt c [] src) eqn:E.
  - now rewrite store_nil.
  - now apply Htotal in E.
Qed.

(** The plaintexts [At] hands to a cipher that returns, case by case: one
    block for a size up to 128, two up to 256, four up to 512, none
    otherwise.  As every cipher text read back is empty, each later
    plaintext is an input of [At] as it came ([y] and not the first cipher
    text xored with [y]; the empty slice in place of the xor of three
    cipher texts; [xLow], [yLow] in place of their xor with a cipher
    text). *)
Theorem At_plaintexts (x y k t : Z) (c : Block) (collaSize : Z) :
  CollaSize t = inr collaSize ->
  (forall dst src, Encrypt c dst src <> None) ->
  let size := combined_size k collaSize in
  let param := Z.shiftl 1 128 in
  map call_src (calls (At ConcatBig Trunc CollaSize x y k t c))
  = if in_range 0 128 size then [Bytes (ConcatBig k x y)]
    else if in_range 129 256 size then [Bytes x; Bytes y]
    else if in_range 257 384 size then
      [Bytes (ConcatBig k (x mod param) (y mod param));
       Bytes (y / param); Bytes (x / param); []]
    else if in_range 385 512 size then
      [Bytes (x / param); Bytes (x mod param);
       Bytes (y / param); Bytes (y mod param)]
    else [].
Proof.
  intros Hcolla Htotal size param. unfold At. rewrite Hcolla. fold size.
  pose proof (fun src => encrypt_nil_total c src Htotal) as Hstep.
  unfold calls, main_logic. fold param.
  destruct (in_range 0 128 size).
  { rewrite Hstep. reflexivity. }
  destruct (in_range 129 256 size).
  { cbn [bind]. rewrite Hstep. cbn [bind]. rewrite Hstep. reflexivity. }
  destruct (in_range 257 384 size).
  { cbn [bind]. rewrite Hstep. cbn [bind]. rewrite Hstep. cbn [bind].
    rewrite Hstep. cbn [bind]. rewrite Hstep. reflexivity. }
  destruct (in_range 385 512 size).
  { cbn [bind]. rewrite Hstep. cbn [bind]. rewrite Hstep. cbn [bind].
    rewrite Hstep. cbn [bind]. rewrite Hstep. reflexivity. }
  reflexivity.
Qed.

(** With a cipher that, like [crypto/aes], panics on a destination shorter
    than its block, [At] panics at its first call to the cipher whenever
    the size is in [0, 512]: it returns for no [x], [y] and [k] there. *)
Theorem At_panics_with_checked_cipher (x y k t : Z) (c : Block) (collaSize : Z) :
  CollaSize t = inr collaSize ->
  0 <= combined_size k collaSize <= 512 ->
  (forall dst src, (length dst < 16)%nat -> Encrypt c dst src = None) ->
  outcome (At ConcatBig Trunc CollaSize x y k t c) = Panicked /\
  length (calls (At ConcatBig Trunc CollaSize x y k t c)) = 1%nat.
Proof.
  intros Hcolla Hsize Hchecked. unfold At. rewrite Hcolla.
  assert (Hstep : forall src,
             encrypt c [] src
             = ([{| call_dst := []; call_src := src |}], Panicked)).
  { intros src. unfold encrypt. rewrite Hchecked; [reflexivity | simpl; lia]. }
  unfold calls, outcome, main_logic.
  destruct (in_range 0 128 (combined_size k collaSize)) eqn:E1.
  { rewrite Hstep. split; reflexivity. }
  destruct (in_range 129 256 (combined_size k collaSize)) eqn:E2.
  { cbn [bind]. rewrite Hstep. split; reflexivity. }
  destruct (in_range 257 384 (combined_size k collaSize)) eqn:E3.
  { cbn [bind]. rewrite Hstep. split; reflexivity. }
  destruct (in_range 385 512 (combined_size k collaSize)) eqn:E4.
  { cbn [bind]. rewrite Hstep. split; reflexivity. }
  exfalso. unfold in_range in *.
  apply andb_false_iff in E1, E2, E3, E4.
  rewrite !Z.leb_gt in *. lia.
Qed.

End AtCipherCalls.

Lemma At_plaintexts_witness :
  map Encrypt.call_src
    (Encrypt.calls
       (Encrypt.At Fixture.ConcatBig Fixture.Trunc Fixture.CollaSize
          (2 ^ 130 + 7) (2 ^ 129 + 5) 50 6 Fixture.cipher_total))
  = [Encrypt.Bytes (Fixture.ConcatBig 50 7 5);
     Encrypt.Bytes 2; Encrypt.Bytes 4; []].
Proof.
  refine (At_plaintexts Fixture.ConcatBig Fixture.Trunc Fixture.CollaSize
            (2 ^ 130 + 7) (2 ^ 129 + 5) 50 6 Fixture.cipher_total 3 eq_refl _).
  intros dst src. simpl. discriminate.
Defined.

Lemma At_panics_with_checked_cipher_witness :
  Encrypt.outcome
    (Encrypt.At Fixture.ConcatBig Fixture.Trunc Fixture.CollaSize
       1 2 10 4 Fixture.cipher_checked) = Encrypt.Panicked /\
  length (Encrypt.calls
            (Encrypt.At Fixture.ConcatBig Fixture.Trunc Fixture.CollaSize
               1 2 10 4 Fixture.cipher_checked)) = 1%nat.
Proof.
  apply (At_panics_with_checked_cipher Fixture.ConcatBig Fixture.Trunc
           Fixture.CollaSize 1 2 10 4 Fixture.cipher_checked 4).
  - reflexivity.
  - vm_compute. split; discriminate.
  - intros dst src Hlen. simpl.
    destruct (Nat.ltb_spec (length dst) 16) as [_ | Hge]; [reflexivity | lia].
Defined.

(** * Further properties of [WriteHeader] *)

Section HeaderResults.

Import Plot.

Variable W : World.

(** [WriteHeader] stops at the first write that fails: every call it makes
    is a [file.Write], all but the last one succeeded, the error returned is
    the answer of the last one, and the count returned is the sum of the
    counts of all of them, the failing one included. *)
Theorem WriteHeader_stops_at_first_error
    (file : File) (k : Z) (memo id : list byte) (h : Hist) :
  exists n err ev,
    WriteHeader W file k memo id h = (Val (n, err), h ++ ev) /\
    length (file_write_results ev) = length ev /\
    Forall (fun r => snd r = None) (removelast (file_write_results ev)) /\
    err = snd (last (file_write_results ev) (0, None)) /\
    match map fst (file_write_results ev) with
    | [] => False
    | n1 :: ns => n = fold_left int_add ns n1
    end.
Proof.
  unfold WriteHeader, bind, file_Write, ret.
  repeat match goal with
         | |- context [afero_Write W ?hh ?f ?b] =>
             let n := fresh "n" in
             let e := fresh "e" in
             destruct (afero_Write W hh f b) as [n [e | ]]; cbn [fst snd]
         end;
    do 2 eexists; rewrite <- ?app_assoc; cbn [app];
    eexists; (split; [reflexivity | ]); cbn;
    repeat split; repeat constructor.
Qed.

(** When a write that returns a nil error has written its whole buffer, a
    successful [WriteHeader] returns [22 + len(id) + len(memo)]: 19 bytes
    of magic, the id, one byte for [k], two for the memo length and the
    memo.  For a 32-byte id this is [54 + len(memo)]. *)
Theorem WriteHeader_length
    (file : File) (k : Z) (memo id : list byte) (h : Hist) (n : Z) (h' : Hist) :
  (forall hh f buf m, afero_Write W hh f buf = (m, None) -> m = len buf) ->
  22 + len id + len memo < 2 ^ 63 ->
  WriteHeader W file k memo id h = (Val (n, None), h') ->
  n = 22 + len id + len memo.
Proof.
  intros Hfull Hfit. unfold WriteHeader, bind, file_Write, ret.
  assert (Hid : 0 <= len id) by (unfold len; lia).
  assert (Hmemo : 0 <= len memo) by (unfold len; lia).
  repeat match goal with
         | |- context [afero_Write W ?hh ?f ?b] =>
             let m := fresh "m" in
             let e := fresh "e" in
             let E := fresh "E" in
             destruct (afero_Write W hh f b) as [m [e | ]] eqn:E;
             cbn [fst snd]; try discriminate;
             apply Hfull in E
         end.
  intros Hrun. injection Hrun as <- _. subst.
  change (len magic) with 19. change (len [byte_of_Z k]) with 1.
  change (len (sizeBuf memo)) with 2.
  assert (Hadd : forall a b, - 2 ^ 63 <= a + b < 2 ^ 63 -> int_add a b = a + b)
    by (intros a b Hab; now apply to_int_small).
  rewrite (Hadd 19 (len id)) by lia.
  rewrite (Hadd (19 + len id) 1) by lia.
  rewrite (Hadd (19 + len id + 1) 2) by lia.
  rewrite (Hadd (19 + len id + 1 + 2) (len memo)) by lia.
  lia.
Qed.

(** Only the low eight bits of [k] reach the header: [k] and [k mod 256]
    give the same calls and the same result, and the byte written for [k]
    reads back as [k mod 256]. *)
Theorem WriteHeader_k_low_byte
    (file : File) (k : Z) (memo id : list byte) (h : Hist) :
  WriteHeader W file k memo id h = WriteHeader W file (k mod 256) memo id h /\
  exists b, nth 2 (header_fields k memo id) [] = [b] /\ Z_of_byte b = k mod 256.
Proof.
  split.
  - unfold WriteHeader.
    replace (byte_of_Z (k mod 256)) with (byte_of_Z k); [reflexivity | ].
    unfold byte_of_Z. now rewrite Z.mod_mod by lia.
  - exists (byte_of_Z k). split; [reflexivity | apply Z_of_byte_of_Z].
Qed.

End HeaderResults.

Lemma WriteHeader_length_witness :
  54 = 22 + Plot.len Fixture.plot_id + Plot.len [].
Proof.
  refine (WriteHeader_length Fixture.plot_world "plot"%string 2 []
            Fixture.plot_id [] 54
            (snd (Plot.WriteHeader Fixture.plot_world "plot"%string 2 []
                    Fixture.plot_id [])) _ _ _).
  - intros hh f buf m E. simpl in E. now injection E as <-.
  - vm_compute. reflexivity.
  - vm_compute. reflexivity.
Defined.

(** * Further properties of [WriteFirstTable] *)

Section HistoryAppend.

Import Plot.

Lemma codec_writes_app (h1 h2 : Hist) :
  codec_writes (h1 ++ h2) = codec_writes h1 ++ codec_writes h2.
Proof.
  induction h1 as [ | e h1 IH]; [reflexivity | ].
  destruct e; simpl; rewrite IH; reflexivity.
Qed.

Lemma codec_write_results_app (h1 h2 : Hist) :
  codec_write_results (h1 ++ h2)
  = codec_write_results h1 ++ codec_write_results h2.
Proof.
  induction h1 as [ | e h1 IH]; [reflexivity | ].
  destruct e; simpl; rewrite IH; reflexivity.
Qed.

Lemma created_app (h1 h2 : Hist) : created (h1 ++ h2) = created h1 ++ created h2.
Proof.
  induction h1 as [ | e h1 IH]; [reflexivity | ].
  destruct e; simpl; rewrite IH; reflexivity.
Qed.

Lemma bytes_after_app (ev1 ev2 : Hist) :
  forall w, bytes_after w (ev1 ++ ev2) = bytes_after (bytes_after w ev1) ev2.
Proof.
  induction ev1 as [ | e ev1 IH]; intros w; [reflexivity | ].
  destruct e; simpl; apply IH.
Qed.

Lemma sequential_writes_app (file : File) (base : Z) (ev1 ev2 : Hist) :
  forall w,
    sequential_writes file base w ev1 ->
    sequential_writes file base (bytes_after w ev1) ev2 ->
    sequential_writes file base w (ev1 ++ ev2).
Proof.
  induction ev1 as [ | e ev1 IH]; intros w H1 H2; [exact H2 | ].
  destruct e; simpl in *; try (now apply IH).
  destruct H1 as (Hf & Ho & H1). repeat split; auto.
Qed.

Lemma read_after_app (ev1 ev2 : Hist) :
  forall r, read_after r (ev1 ++ ev2) = read_after (read_after r ev1) ev2.
Proof.
  induction ev1 as [ | e ev1 IH]; intros r; [reflexivity | ].
  destruct e; simpl; apply IH.
Qed.

Lemma sequential_reads_app (file : File) (base entryLen k : Z) (ev1 ev2 : Hist) :
  forall r,
    sequential_reads file base entryLen k r ev1 ->
    sequential_reads file base entryLen k (read_after r ev1) ev2 ->
    sequential_reads file base entryLen k r (ev1 ++ ev2).
Proof.
  induction ev1 as [ | e ev1 IH]; intros r H1 H2; [exact H2 | ].
  destruct e; simpl in *; try (now apply IH).
  destruct H1 as (Hf & Ho & He & Hk & H1). repeat split; auto.
Qed.

End HistoryAppend.

Section FirstTableTrace.

Import Plot.

Variable W : World.

Lemma first_table_loop_trace (f1 : F1 W) (file : File) (k start maxNumber : Z) :
  maxNumber <= 2 ^ 63 ->
  forall (fuel : nat) (x wrote : Z) (h : Hist),
    0 <= x ->
    Z.of_nat fuel = maxNumber - x ->
    exists r ev,
      first_table_loop W f1 file k start maxNumber fuel x wrote h
      = (Val r, h ++ ev) /\
      file_writes ev = [] /\
      (length (codec_writes ev) <= fuel)%nat /\
      map snd (codec_writes ev)
      = first_table_args W f1 k x (length (codec_writes ev)) /\
      sequential_writes file start wrote ev /\
      fst r = bytes_after wrote ev /\
      fails_last (codec_write_results ev) (snd r) /\
      (snd r = None -> length (codec_writes ev) = fuel).
Proof.
  intros Hmax.
  induction fuel as [ | fuel IH]; intros x wrote h Hx Hfuel.
  - cbn [first_table_loop].
    destruct (Z.ltb_spec x maxNumber) as [Hlt | Hge]; [lia | ].
    exists (wrote, None), []. rewrite app_nil_r. cbn.
    repeat split; auto. exists []. split; [constructor | reflexivity].
  - cbn [first_table_loop].
    destruct (Z.ltb_spec x maxNumber) as [Hlt | Hge]; [ | lia].
    unfold bind at 1. unfold codec_Write at 1.
    destruct (serialize_Write W h file (int_add start wrote)
                [Some x; Some (F1_Calculate W f1 x); Some k]) as [n [e | ]];
      cbn [fst snd].
    + eexists (_, Some e), [_]. split; [reflexivity | ]. cbn.
      repeat split; auto; try lia; try discriminate.
      exists []. split; [constructor | ]. now exists n.
    + assert (Hx1 : u64_add x 1 = x + 1).
      { unfold u64_add. apply to_u64_small. lia. }
      rewrite Hx1.
      destruct (IH (x + 1) (int_add wrote n)
                  (h ++ [SerializeWrite file (int_add start wrote)
                           [Some x; Some (F1_Calculate W f1 x); Some k] n None]))
        as (r & ev & Hrun & Hfw & Hlen & Hargs & Hseq & Hr & Hfail & Hok);
        [lia | lia | ].
      exists r, (SerializeWrite file (int_add start wrote)
                   [Some x; Some (F1_Calculate W f1 x); Some k] n None :: ev).
      split; [rewrite Hrun, <- app_assoc; reflexivity | ].
      cbn [file_writes codec_writes length map snd first_table_args
             sequential_writes bytes_after codec_write_results].
      repeat split; auto; try lia.
      * f_equal. exact Hargs.
      * destruct Hfail as (oks & Hoks & Hrs).
        exists ((n, None) :: oks). split; [now constructor | ].
        destruct (snd r) as [e | ].
        -- destruct Hrs as (m & ->). now exists m.
        -- now rewrite Hrs.
Qed.

(** For [k <= 63], whatever the collaborators answer, [WriteFirstTable]
    returns after at most [2^k] codec writes: they are the records of
    [x = 0, 1, ...] in this order, all but possibly the last succeeded, and
    a failure ends the call with that error.  [file.Write] is called at most
    once, with the end-of-table sentinel, and only after all [2^k] records
    were written; a nil error means the sentinel was written too.  When
    [NewF1] fails nothing is called. *)
Theorem WriteFirstTable_prefix_then_sentinel
    (file : File) (k start : Z) (id : list byte) (h : Hist) :
  k <= 63 ->
  exists r ev,
    WriteFirstTable W file k start id h = (Val r, h ++ ev) /\
    (forall e, NewF1 W k id = inl e -> ev = [] /\ r = (0, Some e)) /\
    (forall f1, NewF1 W k id = inr f1 ->
       map snd (codec_writes ev)
       = first_table_args W f1 k 0 (length (codec_writes ev))) /\
    Z.of_nat (length (codec_writes ev)) <= 2 ^ k /\
    (exists err, fails_last (codec_write_results ev) err /\
                 forall e, err = Some e -> snd r = Some e /\ file_writes ev = []) /\
    (file_writes ev = [] \/ file_writes ev = [serialize_EOT W]) /\
    (file_writes ev = [serialize_EOT W] ->
       Z.of_nat (length (codec_writes ev)) = 2 ^ k /\
       Forall (fun a => snd a = None) (codec_write_results ev)) /\
    (snd r = None -> file_writes ev = [serialize_EOT W]).
Proof.
  intros Hk. unfold WriteFirstTable.
  assert (Hpos : 0 <= 2 ^ k) by (apply Z.pow_nonneg; lia).
  destruct (NewF1 W k id) as [e | f1].
  { exists (0, Some e), []. rewrite app_nil_r. cbn.
    split; [reflexivity | ].
    split; [intros e' He'; injection He' as <-; auto | ].
    split; [discriminate | ].
    split; [lia | ].
    split.
    { exists None. split; [exists []; split; [constructor | reflexivity] | ].
      discriminate. }
    split; [now left | ].
    split; discriminate. }
  assert (Hpow : pow2_u64 W k = 2 ^ k).
  { unfold pow2_u64. destruct (Z.leb_spec k 63); [reflexivity | lia]. }
  rewrite Hpow.
  assert (Hmax : 2 ^ k <= 2 ^ 63).
  { destruct (Z.lt_ge_cases k 0) as [Hneg | Hnn].
    - rewrite Z.pow_neg_r by assumption. lia.
    - apply Z.pow_le_mono_r; lia. }
  destruct (first_table_loop_trace f1 file k start (2 ^ k) Hmax
              (Z.to_nat (2 ^ k)) 0 0 h)
    as ([wrote err] & ev & Hrun & Hfw & Hlen & Hargs & Hseq & Hr & Hfail & Hok);
    [lia | lia | ].
  cbn [fst snd] in *.
  unfold bind at 1. rewrite Hrun.
  destruct err as [e | ].
  { exists (wrote, Some e), ev. split; [reflexivity | ]. cbn [fst snd].
    rewrite Hfw.
    repeat split; auto; try discriminate; try lia.
    - intros f1' Hf1. now injection Hf1 as <-.
    - exists (Some e). split; [exact Hfail | ]. intros e' He'.
      injection He' as <-. auto. }
  specialize (Hok eq_refl).
  assert (Hall : Forall (fun a => snd a = None) (codec_write_results ev)).
  { destruct Hfail as (oks & Hoks & ->). exact Hoks. }
  unfold bind, file_Write.
  destruct (afero_Write W (h ++ ev) file (serialize_EOT W)) as [n_eot [e | ]];
    cbn [fst snd ret].
  - eexists (wrote, Some e), (ev ++ [_]).
    split; [rewrite app_assoc; reflexivity | ].
    rewrite codec_writes_app, codec_write_results_app, file_writes_app, Hfw.
    cbn. rewrite !app_nil_r.
    repeat split; auto; try discriminate; try lia.
    + intros f1' Hf1. now injection Hf1 as <-.
    + exists None. split; [exists (codec_write_results ev); auto | discriminate].
  - eexists (wrote, None), (ev ++ [_]).
    split; [rewrite app_assoc; reflexivity | ].
    rewrite codec_writes_app, codec_write_results_app, file_writes_app, Hfw.
    cbn. rewrite !app_nil_r.
    repeat split; auto; try discriminate; try lia.
    + intros f1' Hf1. now injection Hf1 as <-.
    + exists None. split; [exists (codec_write_results ev); auto | discriminate].
Qed.

(** For [k <= 63], each record [WriteFirstTable] writes goes to [file] at
    [start] plus the counts returned for the records before it, and the
    count it returns is the sum of the counts of all its codec writes (the
    sentinel not counted, the failing write counted), both with the
    wrap-around of [int]; this holds on success and on every failure. *)
Theorem WriteFirstTable_offsets_and_count
    (file : File) (k start : Z) (id : list byte) (h : Hist) :
  k <= 63 ->
  exists r ev,
    WriteFirstTable W file k start id h = (Val r, h ++ ev) /\
    sequential_writes file start 0 ev /\
    fst r = bytes_after 0 ev.
Proof.
  intros Hk. unfold WriteFirstTable.
  assert (Hpos : 0 <= 2 ^ k) by (apply Z.pow_nonneg; lia).
  destruct (NewF1 W k id) as [e | f1].
  { exists (0, Some e), []. rewrite app_nil_r. cbn. auto. }
  assert (Hpow : pow2_u64 W k = 2 ^ k).
  { unfold pow2_u64. destruct (Z.leb_spec k 63); [reflexivity | lia]. }
  rewrite Hpow.
  assert (Hmax : 2 ^ k <= 2 ^ 63).
  { destruct (Z.lt_ge_cases k 0) as [Hneg | Hnn].
    - rewrite Z.pow_neg_r by assumption. lia.
    - apply Z.pow_le_mono_r; lia. }
  destruct (first_table_loop_trace f1 file k start (2 ^ k) Hmax
              (Z.to_nat (2 ^ k)) 0 0 h)
    as ([wrote err] & ev & Hrun & Hfw & Hlen & Hargs & Hseq & Hr & Hfail & Hok);
    [lia | lia | ].
  cbn [fst snd] in *.
  unfold bind at 1. rewrite Hrun.
  destruct err as [e | ].
  { exists (wrote, Some e), ev. auto. }
  unfold bind, file_Write.
  destruct (afero_Write W (h ++ ev) file (serialize_EOT W)) as [n_eot [e | ]];
    cbn [fst snd ret];
    (eexists (wrote, _), (ev ++ [_]);
     split; [rewrite app_assoc; reflexivity | ];
     split; [apply sequential_writes_app; [exact Hseq | exact I] | ];
     rewrite bytes_after_app; cbn; exact Hr).
Qed.

End FirstTableTrace.

(** * Further properties of [WriteTable] *)

Section TableTrace.

Import Plot.

Variable W : World.
Variables (file : File) (k t previousStart currentStart entryLen : Z).
Variable fx : FxT W.

Lemma write_matches_trace (ms : list Match) :
  forall (written : Z) (h : Hist),
    exists r ev,
      write_matches W file k t currentStart fx ms written h = (Val r, h ++ ev) /\
      sequential_writes file currentStart written ev /\
      fst r = bytes_after written ev /\
      no_reads ev /\
      (ms = [] -> ev = [] /\ snd r = None).
Proof.
  induction ms as [ | m ms IH]; intros written h; cbn [write_matches].
  - exists (written, None), []. rewrite app_nil_r. cbn.
    repeat split; auto.
  - destruct (Fx_Calculate W fx t (Left m) (LeftMetadata m) (RightMetadata m))
      as [e | f].
    { exists (written, Some e), []. rewrite app_nil_r. cbn.
      repeat split; auto; discriminate. }
    destruct (Collate W t (to_u64 k) (LeftMetadata m) (RightMetadata m))
      as [e | collated].
    { exists (written, Some e), []. rewrite app_nil_r. cbn.
      repeat split; auto; discriminate. }
    unfold bind at 1. unfold codec_Write at 1.
    destruct (serialize_Write W h file (int_add currentStart written)
                [Some f; None; None; None; Some collated; Some k])
      as [w [e | ]]; cbn [fst snd].
    + eexists (_, Some e), [_]. split; [reflexivity | ]. cbn.
      repeat split; auto; discriminate.
    + destruct (IH (int_add written w)
                  (h ++ [SerializeWrite file (int_add currentStart written)
                           [Some f; None; None; None; Some collated; Some k]
                           w None]))
        as (r & ev & Hrun & Hseq & Hr & Hnr & _).
      exists r, (SerializeWrite file (int_add currentStart written)
                   [Some f; None; None; None; Some collated; Some k] w None :: ev).
      split; [rewrite Hrun, <- app_assoc; reflexivity | ].
      cbn [sequential_writes bytes_after].
      split; [auto | ]. split; [exact Hr | ].
      split; [ | discriminate].
      intros f' base el k' r'. cbn. apply Hnr.
Qed.

Lemma classify_trace (st : TableState) (leftEntry : Entry) (h : Hist) :
  exists fl ev,
    classify W file k t currentStart fx st leftEntry h = (Val fl, h ++ ev) /\
    sequential_writes file currentStart (written st) ev /\
    no_reads ev /\
    (leftBucket st = [] \/ rightBucket st = [] -> ev = []) /\
    match fl with
    | Next st' =>
        written st' = bytes_after (written st) ev /\ switched W st leftEntry st'
    | Return (w, Some _) => w = bytes_after (written st) ev
    | _ => False
    end.
Proof.
  unfold classify.
  assert (Hnil : no_reads []) by (intros f base el k' r; now split).
  destruct (Z.eqb_spec (parameters_BucketID W (Fx leftEntry)) (bucketID st))
    as [H0 | H0].
  { eexists (Next _), []. rewrite app_nil_r. split; [reflexivity | ].
    split; [exact I | ]. split; [exact Hnil | ]. split; [reflexivity | ].
    split; [reflexivity | ]. unfold switched. cbn.
    split; [reflexivity | ]. split; [reflexivity | ].
    left. repeat split; auto. }
  destruct (Z.eqb_spec (parameters_BucketID W (Fx leftEntry))
              (u64_add (bucketID st) 1)) as [H1 | H1].
  { eexists (Next _), []. rewrite app_nil_r. split; [reflexivity | ].
    split; [exact I | ]. split; [exact Hnil | ]. split; [reflexivity | ].
    split; [reflexivity | ]. unfold switched. cbn.
    split; [reflexivity | ]. split; [reflexivity | ].
    right. left. repeat split; auto. }
  unfold bind.
  assert (Hm : exists r ev,
             (if nonempty (leftBucket st) && nonempty (rightBucket st)
              then write_matches W file k t currentStart fx
                     (FindMatches W (leftBucket st) (rightBucket st)) (written st)
              else ret (written st, None)) h = (Val r, h ++ ev) /\
             sequential_writes file currentStart (written st) ev /\
             fst r = bytes_after (written st) ev /\ no_reads ev /\
             (leftBucket st = [] \/ rightBucket st = [] -> ev = [])).
  { destruct (nonempty (leftBucket st) && nonempty (rightBucket st)) eqn:Hne.
    - destruct (write_matches_trace
                  (FindMatches W (leftBucket st) (rightBucket st)) (written st) h)
        as (r & ev & Hrun & Hseq & Hr & Hnr & _).
      exists r, ev. split; [exact Hrun | ]. split; [exact Hseq | ].
      split; [exact Hr | ]. split; [exact Hnr | ].
      intros [Hl | Hr']; [rewrite Hl in Hne | rewrite Hr' in Hne];
        cbn in Hne; try discriminate.
      now rewrite andb_false_r in Hne.
    - exists (written st, None), []. rewrite app_nil_r.
      split; [reflexivity | ]. split; [exact I | ].
      split; [reflexivity | ]. split; [exact Hnil | reflexivity]. }
  destruct Hm as ([written' err] & ev & -> & Hseq & Hr & Hnr & Hempty).
  cbn [fst snd] in *. subst written'.
  destruct err as [e | ].
  { eexists (Return (_, Some e)), ev. split; [reflexivity | ].
    split; [exact Hseq | ]. split; [exact Hnr | ]. split; [exact Hempty | ].
    reflexivity. }
  destruct (Z.eqb_spec (parameters_BucketID W (Fx leftEntry))
              (u64_add (bucketID st) 2)) as [H2 | H2].
  - eexists (Next _), ev. split; [reflexivity | ].
    split; [exact Hseq | ]. split; [exact Hnr | ]. split; [exact Hempty | ].
    split; [reflexivity | ]. unfold switched. cbn.
    split; [reflexivity | ]. split; [reflexivity | ].
    right. right. left. repeat split; auto.
  - eexists (Next _), ev. split; [reflexivity | ].
    split; [exact Hseq | ]. split; [exact Hnr | ]. split; [exact Hempty | ].
    split; [reflexivity | ]. unfold switched. cbn.
    split; [reflexivity | ]. split; [reflexivity | ].
    right. right. right. repeat split; auto.
Qed.

Lemma table_step_trace (st : TableState) (h : Hist) :
  exists fl ev,
    table_step W file k t previousStart currentStart entryLen fx st h
    = (Val fl, h ++ ev) /\
    sequential_writes file currentStart (written st) ev /\
    sequential_reads file previousStart entryLen k (read st) ev /\
    (leftBucket st = [] \/ rightBucket st = [] -> codec_writes ev = []) /\
    match fl with
    | Next st' =>
        written st' = bytes_after (written st) ev /\
        read st' = read_after (read st) ev /\
        exists leftEntry bytesRead,
          switched W (with_read st (int_add (read st) bytesRead))
            (set_Index leftEntry (index st)) st'
    | Break st' => st' = st /\ codec_writes ev = []
    | Return (w, Some _) => w = bytes_after (written st) ev
    | Return (_, None) => False
    end.
Proof.
  unfold table_step, bind. unfold codec_Read at 1.
  destruct (serialize_Read W h file (int_add previousStart (read st)) entryLen k)
    as [[leftEntry bytesRead] err]; cbn [fst snd].
  destruct err as [e | ].
  - destruct (is_EOTErr e || is_EOF e); cbn [ret].
    + eexists (Break _), [_]. split; [reflexivity | ]. cbn. repeat split; auto.
    + eexists (Return (_, Some _)), [_]. split; [reflexivity | ]. cbn.
      repeat split; auto.
  - set (st1 := with_read st (int_add (read st) bytesRead)).
    destruct (classify_trace st1 (set_Index leftEntry (index st1))
                (h ++ [SerializeRead file (int_add previousStart (read st))
                         entryLen k leftEntry bytesRead None]))
      as (fl & ev & Hrun & Hseq & Hnr & Hempty & Hfl).
    cbn zeta. fold st1. rewrite Hrun.
    exists fl, (SerializeRead file (int_add previousStart (read st)) entryLen k
                  leftEntry bytesRead None :: ev).
    split; [rewrite <- app_assoc; reflexivity | ].
    cbn [sequential_writes sequential_reads bytes_after read_after codec_writes].
    split; [exact Hseq | ].
    split; [repeat split; auto; apply Hnr | ].
    split; [intros Hb; now rewrite (Hempty Hb) | ].
    destruct fl as [st' | st' | [w [e | ]]]; try contradiction; auto.
    destruct Hfl as (Hw & Hsw). split; [exact Hw | ].
    split.
    + destruct Hsw as (_ & Hrd & _). rewrite Hrd.
      symmetry. apply Hnr; exact "plot"%string || exact 0.
    + exists leftEntry, bytesRead. exact Hsw.
Qed.

Lemma table_loop_trace (fuel : nat) :
  forall (st : TableState) (h : Hist),
    exists r ev,
      table_loop W file k t previousStart currentStart entryLen fx fuel st h
      = (r, h ++ ev) /\
      sequential_writes file currentStart (written st) ev /\
      sequential_reads file previousStart entryLen k (read st) ev /\
      match r with
      | Val (st', None) => written st' = bytes_after (written st) ev
      | Val (_, Some (w, Some _)) => w = bytes_after (written st) ev
      | Val (_, Some (_, None)) => False
      | _ => True
      end.
Proof.
  induction fuel as [ | fuel IH]; intros st h; cbn [table_loop].
  - exists OutOfFuel, []. rewrite app_nil_r. cbn. auto.
  - unfold bind.
    destruct (table_step_trace st h) as (fl & ev & Hrun & Hseq & Hrd & _ & Hfl).
    rewrite Hrun.
    destruct fl as [st' | st' | [w [e | ]]]; try contradiction.
    + destruct Hfl as (Hw & Hr & _).
      destruct (IH st' (h ++ ev)) as (r & ev' & Hrun' & Hseq' & Hrd' & Hres).
      exists r, (ev ++ ev'). rewrite Hrun', app_assoc.
      split; [reflexivity | ].
      split; [apply sequential_writes_app; [exact Hseq | now rewrite <- Hw] | ].
      split; [apply sequential_reads_app; [exact Hrd | now rewrite <- Hr] | ].
      rewrite bytes_after_app, <- Hw. exact Hres.
    + destruct Hfl as (-> & Hcw).
      exists (Val (st, None)), ev. cbn [ret].
      repeat split; auto.
      clear - Hcw. revert Hcw. generalize (written st).
      induction ev as [ | e ev IHev]; intros w Hcw; [reflexivity | ].
      destruct e; cbn in *; try discriminate; now apply IHev.
    + exists (Val (st, Some (w, Some e))), ev. cbn [ret]. auto.
Qed.

(** Each record [WriteTable] writes goes to [file] at [currentStart] plus
    the counts returned for the records before it, and whenever
    [WriteTable] returns, with or without an error, the count it returns is
    the sum of the counts of all its codec writes, a failing one included
    (both with the wrap-around of [int]). *)
Theorem WriteTable_offsets_and_count (fuel : nat) (h : Hist) :
  exists r ev,
    WriteTable W fuel file k t previousStart currentStart entryLen fx h
    = (r, h ++ EnterWriteTable t previousStart currentStart entryLen :: ev) /\
    sequential_writes file currentStart 0 ev /\
    (forall w err, r = Val (w, err) -> w = bytes_after 0 ev).
Proof.
  unfold WriteTable, bind, mark.
  destruct (table_loop_trace fuel initial_state
              (h ++ [EnterWriteTable t previousStart currentStart entryLen]))
    as (r & ev & Hrun & Hseq & _ & Hres).
  rewrite Hrun, <- app_assoc. cbn [app].
  destruct r as [[st' [[w [e | ]] | ]] | msg | ]; try contradiction;
    cbn [ret]; eexists _, ev; (split; [reflexivity | ]);
    (split; [exact Hseq | ]); intros w' err' Heq;
    try discriminate; injection Heq as <- <-; exact Hres.
Qed.

(** [WriteTable] reads the previous table front to back: every read is
    from [file] with the [entryLen] and [k] it was given, the first at
    [previousStart] and each later one further by the count the read before
    it returned. *)
Theorem WriteTable_reads_in_order (fuel : nat) (h : Hist) :
  exists ev,
    snd (WriteTable W fuel file k t previousStart currentStart entryLen fx h)
    = h ++ EnterWriteTable t previousStart currentStart entryLen :: ev /\
    sequential_reads file previousStart entryLen k 0 ev.
Proof.
  unfold WriteTable, bind, mark.
  destruct (table_loop_trace fuel initial_state
              (h ++ [EnterWriteTable t previousStart currentStart entryLen]))
    as (r & ev & Hrun & _ & Hrd & _).
  rewrite Hrun, <- app_assoc. cbn [app]. exists ev.
  split; [ | exact Hrd].
  destruct r as [[st' [r | ]] | msg | ]; reflexivity.
Qed.

(** At a step that starts with an empty left or right bucket nothing is
    written: the step makes no codec write and leaves the byte count as it
    was, whichever branch the entry takes. *)
Theorem table_step_empty_bucket (st : TableState) (h : Hist) :
  leftBucket st = [] \/ rightBucket st = [] ->
  exists fl ev,
    table_step W file k t previousStart currentStart entryLen fx st h
    = (Val fl, h ++ ev) /\
    codec_writes ev = [] /\
    match fl with
    | Next st' => written st' = written st
    | Break st' => st' = st
    | Return (w, Some _) => w = written st
    | Return (_, None) => False
    end.
Proof.
  intros Hb.
  destruct (table_step_trace st h) as (fl & ev & Hrun & _ & _ & Hempty & Hfl).
  specialize (Hempty Hb). exists fl, ev.
  split; [exact Hrun | split; [exact Hempty | ]].
  assert (Hsame : forall w, bytes_after w ev = w).
  { clear - Hempty. induction ev as [ | e ev IH]; intros w; [reflexivity | ].
    destruct e; cbn in *; try discriminate; now apply IH. }
  destruct fl as [st' | st' | [w [e | ]]]; try contradiction.
  - destruct Hfl as (Hw & _). now rewrite Hw, Hsame.
  - apply Hfl.
  - now rewrite Hfl, Hsame.
Qed.

(** A property of the state that every completed step keeps holds when
    the loop ends. *)
Lemma table_loop_invariant (P : nat -> TableState -> Prop) :
  (forall n st, P (S n) st -> P n st) ->
  (forall n st h st',
     P (S n) st ->
     fst (table_step W file k t previousStart currentStart entryLen fx st h)
     = Val (Next st') ->
     P n st') ->
  forall fuel st h st' r,
    P fuel st ->
    fst (table_loop W file k t previousStart currentStart entryLen fx fuel st h)
    = Val (st', r) ->
    P 0%nat st'.
Proof.
  intros Hmono Hstep.
  assert (Hzero : forall n st, P n st -> P 0%nat st).
  { induction n as [ | n IHn]; intros st HP; [exact HP | ].
    apply IHn, Hmono, HP. }
  induction fuel as [ | fuel IH]; intros st h st' r HP; cbn [table_loop].
  - discriminate.
  - unfold bind.
    pose proof (Hstep fuel st h) as Hnext.
    destruct (table_step_trace st h) as (fl & ev & Hrun & _ & _ & _ & Hfl).
    rewrite Hrun in *. cbn [fst] in Hnext.
    destruct fl as [st1 | st1 | res]; cbn [ret fst].
    + apply IH. now apply Hnext.
    + destruct Hfl as (-> & _). intros Heq. injection Heq as <- _.
      now apply (Hzero (S fuel)).
    + intros Heq. injection Heq as <- _. now apply (Hzero (S fuel)).
Qed.

Lemma table_step_switched (st : TableState) (h : Hist) (st' : TableState) :
  fst (table_step W file k t previousStart currentStart entryLen fx st h)
  = Val (Next st') ->
  exists leftEntry bytesRead,
    switched W (with_read st (int_add (read st) bytesRead))
      (set_Index leftEntry (index st)) st'.
Proof.
  intros Hstep.
  destruct (table_step_trace st h) as (fl & ev & Hrun & _ & _ & _ & Hfl).
  rewrite Hrun in Hstep. cbn [fst] in Hstep. injection Hstep as ->.
  apply Hfl.
Qed.

(** The buckets stay adjacent: the loop starts with the left bucket
    holding entries of bucket [bucketID] only and the right bucket entries
    of bucket [bucketID + 1] only (both are empty), every step that
    completes keeps it so, and so it is when the loop ends.  The matcher is
    therefore only ever given two buckets of consecutive ids. *)
Theorem buckets_stay_adjacent :
  buckets_adjacent W initial_state /\
  (forall st h st',
     buckets_adjacent W st ->
     fst (table_step W file k t previousStart currentStart entryLen fx st h)
     = Val (Next st') ->
     buckets_adjacent W st') /\
  (forall fuel h st' r,
     fst (table_loop W file k t previousStart currentStart entryLen fx fuel
            initial_state h) = Val (st', r) ->
     buckets_adjacent W st').
Proof.
  assert (Hinit : buckets_adjacent W initial_state) by (split; constructor).
  assert (Hstep : forall st h st',
             buckets_adjacent W st ->
             fst (table_step W file k t previousStart currentStart entryLen fx st h)
             = Val (Next st') ->
             buckets_adjacent W st').
  { intros st h st' [HL HR] Hnext.
    destruct (table_step_switched st h st' Hnext)
      as (leftEntry & bytesRead & _ & _ & Hcases).
    cbn [with_read bucketID leftBucket rightBucket set_Index Fx] in Hcases.
    unfold buckets_adjacent.
    destruct Hcases as [(Hid & -> & -> & -> & _)
                       | [(Hid & -> & -> & -> & _)
                         | [(Hid & -> & -> & ->) | (-> & -> & ->)]]].
    - split; [ | exact HR]. apply Forall_app. split; [exact HL | ].
      constructor; [exact Hid | constructor].
    - split; [exact HL | ]. apply Forall_app. split; [exact HR | ].
      constructor; [exact Hid | constructor].
    - split; [exact HR | constructor].
    - split; constructor. }
  split; [exact Hinit | split; [exact Hstep | ]].
  intros fuel h st' r Hrun.
  apply (table_loop_invariant (fun _ st => buckets_adjacent W st)
           (fun _ _ HP => HP) (fun _ st0 h0 st1 HP Hn => Hstep st0 h0 st1 HP Hn)
           fuel initial_state h st' r Hinit Hrun).
Qed.

End TableTrace.

Section TableIndex.

Import Plot.

Variable W : World.
Variables (file : File) (k t previousStart currentStart entryLen : Z).
Variable fx : FxT W.

Lemma indexed_below_weaken (b b' : Z) (l : list Entry) :
  b <= b' -> indexed_below b l -> indexed_below b' l.
Proof.
  intros Hb [Hs Hf]. split; [exact Hs | ].
  eapply Forall_impl; [ | exact Hf]. cbn. intros e He. lia.
Qed.

Lemma indexed_below_snoc (b : Z) (l : list Entry) (e : Entry) :
  0 <= b -> Index e = b -> indexed_below b l -> indexed_below (b + 1) (l ++ [e]).
Proof.
  intros Hb He [Hs Hf]. split.
  - induction Hs as [ | a l Hs IH Ha]; cbn.
    + constructor; constructor.
    + inversion Hf as [ | ? ? Hba Hf']; subst.
      constructor; [now apply IH | ].
      apply Forall_app. split; [exact Ha | ].
      constructor; [lia | constructor].
  - apply Forall_app. split.
    + eapply Forall_impl; [ | exact Hf]. cbn. intros a Ha. lia.
    + constructor; [lia | constructor].
Qed.

(** The buckets stay in read order: every step that completes advances
    [index] by one and leaves each bucket holding entries of increasing,
    hence distinct, indices from 0 up to [index] excluded; so do the
    buckets the loop ends with, as long as the count of entries stays below
    [2^63]. *)
Theorem buckets_stay_indexed :
  (forall st h st',
     buckets_indexed st ->
     index st + 1 < 2 ^ 63 ->
     fst (table_step W file k t previousStart currentStart entryLen fx st h)
     = Val (Next st') ->
     index st' = index st + 1 /\ buckets_indexed st') /\
  (forall fuel h st' r,
     Z.of_nat fuel < 2 ^ 63 ->
     fst (table_loop W file k t previousStart currentStart entryLen fx fuel
            initial_state h) = Val (st', r) ->
     buckets_indexed st').
Proof.
  assert (Hstep : forall st h st',
     buckets_indexed st ->
     index st + 1 < 2 ^ 63 ->
     fst (table_step W file k t previousStart currentStart entryLen fx st h)
     = Val (Next st') ->
     index st' = index st + 1 /\ buckets_indexed st').
  { intros st h st' (Hi & HL & HR) Hfit Hnext.
    destruct (table_step_switched W file k t previousStart currentStart
                entryLen fx st h st' Hnext)
      as (leftEntry & bytesRead & Hidx & _ & Hcases).
    cbn [with_read index bucketID leftBucket rightBucket] in Hidx, Hcases.
    assert (Hidx' : index st' = index st + 1).
    { rewrite Hidx. unfold int_add. apply to_int_small. lia. }
    split; [exact Hidx' | ].
    unfold buckets_indexed. rewrite Hidx'.
    assert (He : Index (set_Index leftEntry (index st)) = index st)
      by reflexivity.
    split; [lia | ].
    destruct Hcases as [(_ & _ & -> & -> & _)
                       | [(_ & _ & -> & -> & _)
                         | [(_ & _ & -> & ->) | (_ & -> & ->)]]].
    - split; [now apply indexed_below_snoc | ].
      apply (indexed_below_weaken (index st)); [lia | exact HR].
    - split; [apply (indexed_below_weaken (index st)); [lia | exact HL] | ].
      now apply indexed_below_snoc.
    - split; [apply (indexed_below_weaken (index st)); [lia | exact HR] | ].
      split; constructor.
    - split; split; constructor. }
  split; [exact Hstep | ].
  intros fuel h st' r Hfuel Hrun.
  assert (Hinit : buckets_indexed initial_state).
  { split; [cbn; lia | split; split; constructor]. }
  pose proof (table_loop_invariant W file k t previousStart currentStart
                entryLen fx
                (fun n st => buckets_indexed st /\ index st + Z.of_nat n < 2 ^ 63))
    as Hinv.
  cbn beta in Hinv.
  apply (Hinv) with (fuel := fuel) (h := h) (r := r) (st := initial_state).
  - intros n st [HP Hn]. split; [exact HP | lia].
  - intros n st h0 st1 [HP Hn] Hnext.
    destruct (Hstep st h0 st1 HP ltac:(lia) Hnext) as [Hi HP'].
    split; [exact HP' | lia].
  - split; [exact Hinit | cbn; lia].
  - exact Hrun.
Qed.

End TableIndex.

(** * Further properties of [WritePlotFile] *)

Section PipelinePhases.

Import Plot.

Variable W : World.

Lemma io_ret {A} (a : A) : extends_io (ret a).
Proof. intros h. exists []. split; [symmetry; apply app_nil_r | constructor]. Qed.

Lemma io_panic {A} (msg : string) : extends_io (@panic A msg).
Proof. intros h. exists []. split; [symmetry; apply app_nil_r | constructor]. Qed.

Lemma io_out_of_fuel {A} : extends_io (@out_of_fuel A).
Proof. intros h. exists []. split; [symmetry; apply app_nil_r | constructor]. Qed.

Lemma io_bind {A B} (m : M A) (f : A -> M B) :
  extends_io m -> (forall a, extends_io (f a)) -> extends_io (bind m f).
Proof.
  intros Hm Hf h. unfold bind.
  destruct (Hm h) as (ev1 & H1 & Q1).
  destruct (m h) as [[a | msg | ] h1]; cbn [snd] in *; subst h1.
  - destruct (Hf a (h ++ ev1)) as (ev2 & H2 & Q2).
    exists (ev1 ++ ev2). rewrite H2, app_assoc.
    split; [reflexivity | now apply Forall_app].
  - now exists ev1.
  - now exists ev1.
Qed.

Lemma io_call {A} (m : M A) :
  (forall h, exists e, snd (m h) = h ++ [e] /\ is_io e = true) ->
  extends_io m.
Proof.
  intros H h. destruct (H h) as (e & He & Q).
  exists [e]. split; [exact He | now constructor].
Qed.

Lemma io_file_Write (file : File) (buf : list byte) :
  extends_io (file_Write W file buf).
Proof. apply io_call. intros h. eexists. split; reflexivity. Qed.

Lemma io_codec_Write (file : File) (offset : Z) (args : list (option Z)) :
  extends_io (codec_Write W file offset args).
Proof. apply io_call. intros h. eexists. split; reflexivity. Qed.

Lemma io_codec_Read (file : File) (offset entryLen k : Z) :
  extends_io (codec_Read W file offset entryLen k).
Proof. apply io_call. intros h. eexists. split; reflexivity. Qed.

Create HintDb io.
#[local] Hint Resolve io_file_Write io_codec_Write io_codec_Read : io.

Ltac io :=
  repeat first
    [ apply io_ret
    | apply io_panic
    | apply io_out_of_fuel
    | solve [auto with io]
    | apply io_bind; [ | intros ? ]
    | match goal with
      | |- extends_io (match ?x with _ => _ end) => destruct x
      | |- extends_io (if ?b then _ else _) => destruct b
      end ].

Lemma io_WriteHeader (file : File) (k : Z) (memo id : list byte) :
  extends_io (WriteHeader W file k memo id).
Proof. unfold WriteHeader. io. Qed.
#[local] Hint Resolve io_WriteHeader : io.

Lemma io_first_table_loop (f1 : F1 W) (file : File) (k start maxNumber : Z)
    (fuel : nat) :
  forall x wrote,
    extends_io (first_table_loop W f1 file k start maxNumber fuel x wrote).
Proof.
  induction fuel as [ | fuel IH]; intros x wrote; cbn [first_table_loop]; io.
Qed.
#[local] Hint Resolve io_first_table_loop : io.

Lemma io_WriteFirstTable (file : File) (k start : Z) (id : list byte) :
  extends_io (WriteFirstTable W file k start id).
Proof. unfold WriteFirstTable. destruct (NewF1 W k id); io. Qed.
#[local] Hint Resolve io_WriteFirstTable : io.

Lemma io_write_matches (file : File) (k t currentStart : Z) (fx : FxT W)
    (ms : list Match) :
  forall written, extends_io (write_matches W file k t currentStart fx ms written).
Proof.
  induction ms as [ | m ms IH]; intros written; cbn [write_matches]; io.
Qed.
#[local] Hint Resolve io_write_matches : io.

Lemma io_table_step
    (file : File) (k t previousStart currentStart entryLen : Z) (fx : FxT W)
    (st : TableState) :
  extends_io (table_step W file k t previousStart currentStart entryLen fx st).
Proof. unfold table_step, classify. io. Qed.
#[local] Hint Resolve io_table_step : io.

Lemma io_table_loop
    (file : File) (k t previousStart currentStart entryLen : Z) (fx : FxT W)
    (fuel : nat) :
  forall st,
    extends_io
      (table_loop W file k t previousStart currentStart entryLen fx fuel st).
Proof.
  induction fuel as [ | fuel IH]; intros st; cbn [table_loop]; io.
Qed.

Lemma io_history (ev : Hist) :
  Forall (fun e => is_io e = true) ev ->
  created ev = [] /\ entered_tables ev = [] /\ sorted_regions ev = [].
Proof.
  induction 1 as [ | e ev He _ (IH1 & IH2 & IH3)]; [now repeat split | ].
  destruct e; try discriminate; now repeat split.
Qed.

Lemma first_table_loop_file_writes (f1 : F1 W) (file : File)
    (k start maxNumber : Z) (fuel : nat) :
  forall x wrote h,
    file_writes (snd (first_table_loop W f1 file k start maxNumber fuel x wrote h))
    = file_writes h.
Proof.
  induction fuel as [ | fuel IH]; intros x wrote h; cbn [first_table_loop];
    destruct (x <? maxNumber); try reflexivity.
  unfold bind at 1. unfold codec_Write at 1.
  destruct (serialize_Write W h file _ _) as [n [e | ]]; cbn [fst snd ret].
  - rewrite file_writes_app. cbn. apply app_nil_r.
  - rewrite IH, file_writes_app. cbn. apply app_nil_r.
Qed.

(** What [WriteFirstTable] adds to the history, and its one [file.Write]
    when it succeeds. *)
Lemma WriteFirstTable_facts (file : File) (k start : Z) (id : list byte) (h : Hist) :
  exists r ev,
    WriteFirstTable W file k start id h = (r, h ++ ev) /\
    Forall (fun e => is_io e = true) ev /\
    (forall wrote, r = Val (wrote, None) -> file_writes ev = [serialize_EOT W]) /\
    (k < 0 -> codec_writes ev = [] /\ exists res, r = Val res).
Proof.
  destruct (io_WriteFirstTable file k start id h) as (ev & Hev & Hio).
  exists (fst (WriteFirstTable W file k start id h)), ev.
  split; [rewrite <- Hev; apply surjective_pairing | ].
  split; [exact Hio | ].
  split.
  - intros wrote Hres.
    assert (Hfw : file_writes (snd (WriteFirstTable W file k start id h))
                  = file_writes h ++ [serialize_EOT W]).
    { revert Hres. unfold WriteFirstTable.
      destruct (NewF1 W k id) as [e | f1]; [discriminate | ].
      unfold bind, file_Write.
      pose proof (first_table_loop_file_writes f1 file k start (pow2_u64 W k)
                    (Z.to_nat (pow2_u64 W k)) 0 0 h) as Hlw.
      destruct (first_table_loop W f1 file k start (pow2_u64 W k) _ 0 0 h)
        as [[[w [e | ]] | msg | ] h1]; cbn [fst snd] in *; try discriminate.
      destruct (afero_Write W h1 file (serialize_EOT W)) as [n [e | ]];
        cbn [fst snd ret]; try discriminate.
      intros _. rewrite file_writes_app, Hlw. reflexivity. }
    rewrite Hev, file_writes_app in Hfw.
    now apply app_inv_head in Hfw.
  - intros Hneg.
    assert (Hpow : pow2_u64 W k = 0).
    { unfold pow2_u64. destruct (Z.leb_spec k 63); [ | lia].
      now apply Z.pow_neg_r. }
    revert Hev. unfold WriteFirstTable.
    destruct (NewF1 W k id) as [e | f1].
    { cbn. intros Hev. apply (f_equal (@length Event)) in Hev.
      rewrite length_app in Hev. destruct ev; cbn in *; [ | lia].
      split; [reflexivity | eauto]. }
    rewrite Hpow. cbn [Z.to_nat first_table_loop Z.ltb Z.compare].
    unfold bind, ret, file_Write.
    destruct (afero_Write W h file (serialize_EOT W)) as [n [e | ]];
      cbn [fst snd]; intros Hev; apply app_inv_head in Hev; subst ev;
      (split; [reflexivity | eauto]).
Qed.

Lemma WriteTable_facts
    (fuel : nat) (file : File) (k t previousStart currentStart entryLen : Z)
    (fx : FxT W) (h : Hist) :
  exists r q,
    WriteTable W fuel file k t previousStart currentStart entryLen fx h
    = (r, h ++ EnterWriteTable t previousStart currentStart entryLen :: q) /\
    Forall (fun e => is_io e = true) q /\
    file_writes q = [].
Proof.
  pose proof (WriteTable_file_writes W fuel file k t previousStart currentStart
                entryLen fx h) as Hfw.
  revert Hfw. unfold WriteTable, bind, mark.
  destruct (io_table_loop file k t previousStart currentStart entryLen fx fuel
              initial_state
              (h ++ [EnterWriteTable t previousStart currentStart entryLen]))
    as (q & Hq & Hio).
  destruct (table_loop W file k t previousStart currentStart entryLen fx fuel
              initial_state _) as [[[st [r | ]] | msg | ] h'];
    cbn [snd ret] in *; subst h'; rewrite <- app_assoc; cbn [app];
    intros Hfw; eexists _, q; (split; [reflexivity | ]);
    (split; [exact Hio | ]);
    rewrite file_writes_app in Hfw; cbn [file_writes] in Hfw;
    rewrite <- (app_nil_r (file_writes h)) in Hfw at 2;
    now apply app_inv_head in Hfw.
Qed.

(** [sort_and_build] panics on a zero entry count; otherwise it sorts, and
    goes on to the pass for table 2 when the sort and [NewFx] succeed. *)
Lemma sort_and_build_facts
    (fuel : nat) (file : File) (spare : option File) (k availableMemory : Z)
    (id : list byte) (headerLen wrote : Z) (h : Hist) :
  let maxNumber := pow2_int W k in
  let el := to_int (Z.quot wrote maxNumber) in
  (maxNumber = 0 /\
   sort_and_build W fuel file spare k availableMemory id headerLen wrote h
   = (Panic "integer divide by zero", h)) \/
  (maxNumber <> 0 /\
   exists err r tl,
     sort_and_build W fuel file spare k availableMemory id headerLen wrote h
     = (r, h ++ SortOnDisk file spare headerLen (int_add wrote headerLen)
                  availableMemory el maxNumber k err :: tl) /\
     ((tl = [] /\ exists e, r = Val (Some e)) \/
      (err = None /\
       exists previousStart currentStart entryLen q,
         tl = EnterWriteTable 2 previousStart currentStart entryLen :: q /\
         Forall (fun e => is_io e = true) q /\ file_writes q = []))).
Proof.
  intros maxNumber el. unfold sort_and_build. fold maxNumber.
  destruct (Z.eqb_spec maxNumber 0) as [Hz | Hnz]; [left | right].
  { split; [exact Hz | ]. unfold bind at 1, int_div.
    rewrite Hz. reflexivity. }
  split; [exact Hnz | ].
  assert (Hdiv : int_div wrote maxNumber h = (Val el, h)).
  { unfold int_div.
    destruct (Z.eqb_spec maxNumber 0); [contradiction | reflexivity]. }
  unfold bind at 1. rewrite Hdiv.
  set (err := sort_OnDisk W h file spare headerLen (int_add wrote headerLen)
                availableMemory el maxNumber k).
  assert (Hsort : disk_sort W file spare headerLen (int_add wrote headerLen)
                    availableMemory el maxNumber k h
                  = (Val err, h ++ [SortOnDisk file spare headerLen
                                      (int_add wrote headerLen) availableMemory
                                      el maxNumber k err]))
    by reflexivity.
  unfold bind at 1. rewrite Hsort. clearbody err.
  destruct err as [e | ].
  { exists (Some e), (Val (Some e)), []. split; [reflexivity | left; eauto]. }
  destruct (NewFx W (to_u64 k) id) as [e | fx].
  { exists None, (Val (Some e)), []. split; [reflexivity | left; eauto]. }
  unfold bind.
  change (tables_loop W fuel file k maxNumber fx 6 2 ?v ?hh)
    with (bind (tables_body W fuel file k maxNumber fx 2 v)
            (fun fl =>
               match fl with
               | Next v' => tables_loop W fuel file k maxNumber fx 5 (int_add 2 1) v'
               | Break v' => ret (v', None)
               | Return e => ret (v, Some e)
               end) hh).
  unfold bind, tables_body, bind. cbn [previousStart currentStart entryLen].
  match goal with
  | |- context [WriteTable W fuel file k 2 ?ps ?cs ?len fx ?hh] =>
      destruct (WriteTable_facts fuel file k 2 ps cs len fx hh)
        as (r & q & Hrun & Hio & Hfw); rewrite Hrun
  end.
  assert (Htl : forall res : res (option error),
             exists err r0 tl,
               (res, (h ++ [SortOnDisk file spare headerLen
                              (int_add wrote headerLen) availableMemory el
                              maxNumber k None])
                     ++ EnterWriteTable 2 headerLen (int_add headerLen wrote) el
                        :: q)
               = (r0, h ++ SortOnDisk file spare headerLen
                             (int_add wrote headerLen) availableMemory el
                             maxNumber k err :: tl) /\
               ((tl = [] /\ exists e, r0 = Val (Some e)) \/
                (err = None /\
                 exists previousStart currentStart entryLen q0,
                   tl = EnterWriteTable 2 previousStart currentStart entryLen :: q0 /\
                   Forall (fun e => is_io e = true) q0 /\ file_writes q0 = []))).
  { intros res. exists (@None error), res, (EnterWriteTable 2 headerLen
                                     (int_add headerLen wrote) el :: q).
    split; [rewrite <- app_assoc; reflexivity | ].
    right. split; [reflexivity | ]. eauto 10. }
  destruct r as [[w [e | ]] | msg | ]; cbn [ret previousStart currentStart entryLen];
    try apply Htl.
  unfold int_div.
  destruct (maxNumber =? 0); cbn [ret panic]; apply Htl.
Qed.

Lemma file_writes_length (ev : Hist) : (length (file_writes ev) <= length ev)%nat.
Proof.
  induction ev as [ | e ev IH]; [constructor | ]. destruct e; cbn; lia.
Qed.

Lemma only_file_writes (ev : Hist) :
  length (file_writes ev) = length ev ->
  codec_writes ev = [] /\ created ev = [] /\
  entered_tables ev = [] /\ sorted_regions ev = [].
Proof.
  induction ev as [ | e ev IH]; [now repeat split | ].
  pose proof (file_writes_length ev).
  destruct e; cbn; intros Hlen; try lia.
  apply IH. lia.
Qed.

Lemma WriteHeader_events (file : File) (k : Z) (memo id : list byte) (h : Hist) :
  exists n err ev,
    WriteHeader W file k memo id h = (Val (n, err), h ++ ev) /\
    length (file_writes ev) = length ev /\
    (err = None -> file_writes ev = header_fields k memo id).
Proof.
  unfold WriteHeader, bind, file_Write, ret, header_fields.
  repeat match goal with
         | |- context [afero_Write W ?hh ?f ?b] =>
             let n := fresh "n" in
             let e := fresh "e" in
             destruct (afero_Write W hh f b) as [n [e | ]]; cbn [fst snd]
         end;
    do 2 eexists; rewrite <- ?app_assoc; cbn [app];
    eexists; (split; [reflexivity | ]); cbn;
    (split; [reflexivity | ]); (discriminate || reflexivity).
Qed.

(** [WritePlotFile] up to "Sorting table 1...": it ends early, or goes on
    to [sort_and_build] with the header and the first table written. *)
Lemma WritePlotFile_phases
    (fuel : nat) (filename : string) (k availableMemory : Z)
    (memo id : list byte) (h : Hist) :
  exists ev,
    entered_tables ev = [] /\ sorted_regions ev = [] /\
    (k < 0 -> codec_writes ev = []) /\
    ((exists res,
        WritePlotFile W fuel filename k availableMemory memo id h
        = (res, h ++ ev) /\
        res <> Val None /\
        (k < 0 -> exists e, res = Val (Some e))) \/
     (exists spare headerLen wrote,
        WritePlotFile W fuel filename k availableMemory memo id h
        = sort_and_build W fuel filename spare k availableMemory id
            headerLen wrote (h ++ ev) /\
        file_writes ev = header_fields k memo id ++ [serialize_EOT W] /\
        spare = (if wrote >? availableMemory
                 then Some (filename ++ "-spare")%string else None) /\
        created ev = filename :: (if wrote >? availableMemory
                                  then [(filename ++ "-spare")%string] else []))).
Proof.
  remember (WritePlotFile W fuel filename k availableMemory memo id h) as run
    eqn:Hrun.
  unfold WritePlotFile in Hrun.
  unfold bind at 1 in Hrun. unfold fs_Create at 1 in Hrun.
  destruct (afero_Create W h filename) as [e | ].
  { exists [Create filename (Some e)]. cbn.
    repeat split; auto. left. exists (Val (Some e)).
    repeat split; eauto. discriminate. }
  set (c1 := Create filename None) in *.
  destruct (WriteHeader_events filename k memo id (h ++ [c1]))
    as (headerLen & err & ev2 & Hrun2 & Hlen2 & Hfw2).
  destruct (only_file_writes ev2 Hlen2) as (Hcw2 & Hcr2 & Hen2 & Hso2).
  unfold bind at 1 in Hrun. rewrite Hrun2 in Hrun.
  destruct err as [e | ].
  { exists (c1 :: ev2). cbn. rewrite <- app_assoc in Hrun.
    repeat split; auto. left. exists (Val (Some e)).
    repeat split; eauto. discriminate. }
  specialize (Hfw2 eq_refl).
  destruct (WriteFirstTable_facts filename k headerLen id ((h ++ [c1]) ++ ev2))
    as (r3 & ev3 & Hrun3 & Hio3 & Hfw3 & Hneg3).
  destruct (io_history ev3 Hio3) as (Hcr3 & Hen3 & Hso3).
  unfold bind at 1 in Hrun. rewrite Hrun3 in Hrun.
  assert (Hpre : entered_tables (c1 :: ev2 ++ ev3) = [] /\
                 sorted_regions (c1 :: ev2 ++ ev3) = [] /\
                 created (c1 :: ev2 ++ ev3) = [filename] /\
                 (k < 0 -> codec_writes (c1 :: ev2 ++ ev3) = []) /\
                 file_writes (c1 :: ev2 ++ ev3)
                 = header_fields k memo id ++ file_writes ev3).
  { cbn. rewrite entered_tables_app, sorted_regions_app, created_app,
      codec_writes_app, file_writes_app, Hen2, Hen3, Hso2, Hso3, Hcr2, Hcr3,
      Hcw2, Hfw2.
    repeat split; auto. intros Hneg. now destruct (Hneg3 Hneg). }
  destruct Hpre as (Hen & Hso & Hcr & Hcw & Hfw).
  assert (Happ : ((h ++ [c1]) ++ ev2) ++ ev3 = h ++ c1 :: ev2 ++ ev3).
  { now rewrite <- !app_assoc. }
  rewrite Happ in Hrun. clear Hrun2 Hrun3 Happ.
  clearbody c1.
  destruct r3 as [[wrote [e | ]] | msg | ].
  - exists (c1 :: ev2 ++ ev3). repeat split; auto.
    left. exists (Val (Some e)). repeat split; eauto. discriminate.
  - specialize (Hfw3 wrote eq_refl).
    destruct (wrote >? availableMemory) eqn:Hbig.
    + unfold bind at 1 in Hrun. unfold bind at 1 in Hrun.
      unfold fs_Create at 1 in Hrun. cbn [ret] in Hrun.
      destruct (afero_Create W (h ++ c1 :: ev2 ++ ev3) (filename ++ "-spare"))
        as [e | ].
      * exists ((c1 :: ev2 ++ ev3) ++ [Create (filename ++ "-spare") (Some e)]).
        split; [rewrite entered_tables_app, Hen; reflexivity | ].
        split; [rewrite sorted_regions_app, Hso; reflexivity | ].
        split; [intros Hneg; rewrite codec_writes_app, (Hcw Hneg); reflexivity | ].
        left. exists (Val (Some e)). rewrite app_assoc.
        repeat split; eauto; discriminate.
      * exists ((c1 :: ev2 ++ ev3) ++ [Create (filename ++ "-spare") None]).
        split; [rewrite entered_tables_app, Hen; reflexivity | ].
        split; [rewrite sorted_regions_app, Hso; reflexivity | ].
        split; [intros Hneg; rewrite codec_writes_app, (Hcw Hneg); reflexivity | ].
        right. exists (Some (filename ++ "-spare")%string), headerLen, wrote.
        rewrite Hbig, created_app, file_writes_app, Hcr, Hfw, Hfw3.
        split; [now rewrite app_assoc | ].
        split; [cbn [file_writes]; apply app_nil_r | split; reflexivity].
    + unfold bind at 1 in Hrun. cbn [ret] in Hrun.
      exists (c1 :: ev2 ++ ev3).
      split; [exact Hen | ]. split; [exact Hso | ]. split; [exact Hcw | ].
      right. exists None, headerLen, wrote. rewrite Hbig, Hcr, Hfw, Hfw3.
      split; [exact Hrun | ]. split; [reflexivity | split; reflexivity].
  - exists (c1 :: ev2 ++ ev3). repeat split; auto.
    left. exists (Panic msg). split; [exact Hrun | ]. split; [discriminate | ].
    intros Hneg. destruct (Hneg3 Hneg) as (_ & res & Hres). discriminate.
  - exists (c1 :: ev2 ++ ev3). repeat split; auto.
    left. exists OutOfFuel. split; [exact Hrun | ]. split; [discriminate | ].
    intros Hneg. destruct (Hneg3 Hneg) as (_ & res & Hres). discriminate.
Qed.

End PipelinePhases.

Section PipelineResults.

Import Plot.

Variable W : World.

Lemma no_sort_event (l : Hist) :
  sorted_regions l = [] ->
  forall f sp start stop mem el mx k err,
    ~ In (SortOnDisk f sp start stop mem el mx k err) l.
Proof.
  induction l as [ | e l IH]; intros Hs f sp start stop mem el mx k err HIn;
    [contradiction | ].
  destruct HIn as [-> | HIn]; [discriminate | ].
  destruct e; cbn in Hs; try discriminate; eapply IH; eauto.
Qed.

(** A run of [WritePlotFile] that returns nil has called [file.Write] for
    the five fields of the header and then once more, for the sentinel of
    table 1, and for nothing else; it has sorted once and run one
    [WriteTable] pass, for table 2; and it has created the plot file and at
    most the spare file. *)
Theorem WritePlotFile_success_trace
    (fuel : nat) (filename : string) (k availableMemory : Z)
    (memo id : list byte) (h : Hist) :
  fst (WritePlotFile W fuel filename k availableMemory memo id h) = Val None ->
  let h' := snd (WritePlotFile W fuel filename k availableMemory memo id h) in
  file_writes h'
  = file_writes h ++ header_fields k memo id ++ [serialize_EOT W] /\
  entered_tables h' = entered_tables h ++ [2] /\
  length (sorted_regions h') = S (length (sorted_regions h)) /\
  (created h' = created h ++ [filename] \/
   created h' = created h ++ [filename; (filename ++ "-spare")%string]).
Proof.
  intros Hok h'. subst h'.
  destruct (WritePlotFile_phases W fuel filename k availableMemory memo id h)
    as (ev & Hen & Hso & _ & [(res & Hrun & Hres & _)
                            | (spare & headerLen & wrote & Hrun & Hfw & Hsp & Hcr)]).
  { rewrite Hrun in Hok. cbn in Hok. contradiction. }
  rewrite Hrun in *.
  destruct (sort_and_build_facts W fuel filename spare k availableMemory id
              headerLen wrote (h ++ ev))
    as [(_ & Hpanic) | (_ & err & r & tl & Hsab & Htl)].
  { rewrite Hpanic in Hok. discriminate. }
  rewrite Hsab in *. cbn [fst snd] in *.
  destruct Htl as [(_ & e & ->) | (_ & ps & cs & el & q & -> & Hio & Hq)];
    [discriminate | ].
  destruct (io_history q Hio) as (Hcq & Heq & Hsq).
  rewrite <- app_assoc.
  rewrite !file_writes_app, !entered_tables_app, !sorted_regions_app,
    !created_app, Hen, Hso, Hfw, Hcr.
  cbn [file_writes entered_tables sorted_regions created app].
  rewrite Hq, Heq, Hsq, Hcq, !app_nil_r, length_app.
  split; [reflexivity | ]. split; [reflexivity | ].
  split; [cbn; lia | ].
  destruct (wrote >? availableMemory); auto.
Qed.

(** For a negative [k] the pipeline cannot complete: [2^k] truncates to
    zero, no entry of table 1 is written, and the run ends in an error of
    a collaborator or in the division by zero of the entry length, before
    any sort or [WriteTable] pass. *)
Theorem WritePlotFile_negative_k
    (fuel : nat) (filename : string) (k availableMemory : Z)
    (memo id : list byte) (h : Hist) :
  k < 0 ->
  let run := WritePlotFile W fuel filename k availableMemory memo id h in
  ((exists e, fst run = Val (Some e)) \/
   fst run = Panic "integer divide by zero") /\
  codec_writes (snd run) = codec_writes h /\
  sorted_regions (snd run) = sorted_regions h /\
  entered_tables (snd run) = entered_tables h.
Proof.
  intros Hneg run. subst run.
  destruct (WritePlotFile_phases W fuel filename k availableMemory memo id h)
    as (ev & Hen & Hso & Hcw & [(res & Hrun & _ & Hres)
                              | (spare & headerLen & wrote & Hrun & _)]).
  - rewrite Hrun. cbn [fst snd].
    rewrite codec_writes_app, sorted_regions_app, entered_tables_app,
      (Hcw Hneg), Hen, Hso, !app_nil_r.
    split; [left; destruct (Hres Hneg) as (e & ->); eauto | auto].
  - rewrite Hrun.
    destruct (sort_and_build_facts W fuel filename spare k availableMemory id
                headerLen wrote (h ++ ev))
      as [(_ & Hpanic) | (Hnz & _)].
    + rewrite Hpanic. cbn [fst snd].
      rewrite codec_writes_app, sorted_regions_app, entered_tables_app,
        (Hcw Hneg), Hen, Hso, !app_nil_r.
      repeat split; auto.
    + exfalso. apply Hnz. unfold pow2_int.
      destruct (Z.leb_spec k 62); [now apply Z.pow_neg_r | lia].
Qed.

(** A run from the empty history either ends before any sort, or reaches
    [sort_and_build] with the header length [WriteHeader] returned and the
    byte count [WriteFirstTable] returned. *)
Lemma WritePlotFile_to_sort
    (fuel : nat) (filename : string) (k availableMemory : Z)
    (memo id : list byte) :
  (exists res ev,
     WritePlotFile W fuel filename k availableMemory memo id [] = (res, ev) /\
     sorted_regions ev = []) \/
  (exists headerLen wrote h2 h3 hs,
     afero_Create W [] filename = None /\
     WriteHeader W filename k memo id [Create filename None]
     = (Val (headerLen, None), h2) /\
     WriteFirstTable W filename k headerLen id h2 = (Val (wrote, None), h3) /\
     sorted_regions hs = [] /\
     created hs = filename :: (if wrote >? availableMemory
                               then [(filename ++ "-spare")%string] else []) /\
     WritePlotFile W fuel filename k availableMemory memo id []
     = sort_and_build W fuel filename
         (if wrote >? availableMemory
          then Some (filename ++ "-spare")%string else None)
         k availableMemory id headerLen wrote hs).
Proof.
  remember (WritePlotFile W fuel filename k availableMemory memo id []) as run
    eqn:Hrun.
  unfold WritePlotFile in Hrun.
  unfold bind at 1 in Hrun. unfold fs_Create at 1 in Hrun.
  destruct (afero_Create W [] filename) as [e | ] eqn:Hc.
  { left. exists (Val (Some e)), [Create filename (Some e)]. now split. }
  cbn [app] in Hrun.
  destruct (WriteHeader_events W filename k memo id [Create filename None])
    as (headerLen & err & ev2 & Hrun2 & Hlen2 & _).
  destruct (only_file_writes ev2 Hlen2) as (_ & Hcr2 & _ & Hso2).
  unfold bind at 1 in Hrun. rewrite Hrun2 in Hrun.
  destruct err as [e | ].
  { left. exists (Val (Some e)), ([Create filename None] ++ ev2).
    split; [exact Hrun | ]. now rewrite sorted_regions_app, Hso2. }
  destruct (WriteFirstTable_facts W filename k headerLen id
              ([Create filename None] ++ ev2))
    as (r3 & ev3 & Hrun3 & Hio3 & _).
  destruct (io_history ev3 Hio3) as (Hcr3 & _ & Hso3).
  unfold bind at 1 in Hrun. rewrite Hrun3 in Hrun.
  set (h3 := ([Create filename None] ++ ev2) ++ ev3) in *.
  assert (Hso : sorted_regions h3 = []).
  { unfold h3. now rewrite !sorted_regions_app, Hso2, Hso3. }
  assert (Hcr : created h3 = [filename]).
  { unfold h3. now rewrite !created_app, Hcr2, Hcr3. }
  clearbody h3.
  destruct r3 as [[wrote [e | ]] | msg | ].
  - left. exists (Val (Some e)), h3. now split.
  - destruct (wrote >? availableMemory) eqn:Hbig.
    + unfold bind at 1 in Hrun. unfold bind at 1 in Hrun.
      unfold fs_Create at 1 in Hrun. cbn [ret] in Hrun.
      destruct (afero_Create W h3 (filename ++ "-spare")) as [e | ].
      * left. exists (Val (Some e)),
          (h3 ++ [Create (filename ++ "-spare") (Some e)]).
        split; [exact Hrun | ]. now rewrite sorted_regions_app, Hso.
      * right. exists headerLen, wrote, ([Create filename None] ++ ev2), h3,
          (h3 ++ [Create (filename ++ "-spare") None]).
        rewrite Hbig, sorted_regions_app, created_app, Hso, Hcr.
        repeat split; auto.
    + unfold bind at 1 in Hrun. cbn [ret] in Hrun.
      right. exists headerLen, wrote, ([Create filename None] ++ ev2), h3, h3.
      rewrite Hbig. repeat split; auto.
  - left. exists (Panic msg), h3. now split.
  - left. exists OutOfFuel, h3. now split.
Qed.

(** Every call of [sort.OnDisk] in a run is made after the plot file was
    created, [WriteHeader] returned a header length and a nil error and
    [WriteFirstTable], writing from that offset, returned a byte count
    [wrote] and a nil error.  It is on the plot file, with the caller's
    memory budget and [k] and an entry count of [2^k] as the code computes
    it; its region starts at the header length and ends [wrote] bytes
    later, its entry length is [wrote / 2^k], and the spare file is passed,
    and has been created, exactly when [wrote] exceeds the memory
    budget. *)
Theorem WritePlotFile_sort_arguments
    (fuel : nat) (filename : string) (k availableMemory : Z)
    (memo id : list byte)
    (f : File) (sp : option File) (start stop mem el mx k' : Z)
    (err : option error) :
  let run := WritePlotFile W fuel filename k availableMemory memo id [] in
  In (SortOnDisk f sp start stop mem el mx k' err) (snd run) ->
  exists wrote h2 h3,
    afero_Create W [] filename = None /\
    WriteHeader W filename k memo id [Create filename None]
    = (Val (start, None), h2) /\
    WriteFirstTable W filename k start id h2 = (Val (wrote, None), h3) /\
    f = filename /\ mem = availableMemory /\ k' = k /\ mx = pow2_int W k /\
    stop = int_add wrote start /\
    el = to_int (Z.quot wrote mx) /\
    sp = (if wrote >? availableMemory
          then Some (filename ++ "-spare")%string else None) /\
    created (snd run)
    = filename :: (if wrote >? availableMemory
                   then [(filename ++ "-spare")%string] else []).
Proof.
  intros run HIn. subst run.
  destruct (WritePlotFile_to_sort fuel filename k availableMemory memo id)
    as [(res & ev & Hrun & Hso)
       | (headerLen & wrote & h2 & h3 & hs & Hc & Hh & Ht & Hso & Hcr & Hrun)].
  { rewrite Hrun in HIn. cbn in HIn. now apply no_sort_event in HIn. }
  rewrite Hrun in *.
  destruct (sort_and_build_facts W fuel filename
              (if wrote >? availableMemory
               then Some (filename ++ "-spare")%string else None)
              k availableMemory id headerLen wrote hs)
    as [(_ & Hpanic) | (_ & err0 & r & tl & Hsab & Htl)].
  { rewrite Hpanic in HIn. cbn in HIn. now apply no_sort_event in HIn. }
  rewrite Hsab in *. cbn [fst snd] in *.
  assert (Htl' : sorted_regions tl = [] /\ created tl = []).
  { destruct Htl as [(-> & _) | (_ & ps & cs & el0 & q & -> & Hio & _)];
      [now split | ].
    destruct (io_history q Hio) as (Hcq & _ & Hsq). now split. }
  destruct Htl' as (Hst & Hct).
  apply in_app_or in HIn. destruct HIn as [HIn | [Heq | HIn]].
  - now apply no_sort_event in HIn.
  - injection Heq as <- <- <- <- <- <- <- <- <-.
    exists wrote, h2, h3.
    rewrite created_app. cbn [created]. rewrite Hct, app_nil_r.
    repeat split; auto.
  - now apply no_sort_event in HIn.
Qed.

End PipelineResults.

(** * Concrete instances of the further properties *)

Lemma WriteFirstTable_prefix_then_sentinel_witness :
  exists r ev,
    Plot.WriteFirstTable Fixture.plot_world "plot"%string 2 54 Fixture.plot_id []
    = (Plot.Val r, [] ++ ev) /\
    (forall e, Plot.NewF1 Fixture.plot_world 2 Fixture.plot_id = inl e ->
               ev = [] /\ r = (0, Some e)) /\
    (forall f1, Plot.NewF1 Fixture.plot_world 2 Fixture.plot_id = inr f1 ->
       map snd (Plot.codec_writes ev)
       = Plot.first_table_args Fixture.plot_world f1 2 0
           (length (Plot.codec_writes ev))) /\
    Z.of_nat (length (Plot.codec_writes ev)) <= 2 ^ 2 /\
    (exists err, Plot.fails_last (Plot.codec_write_results ev) err /\
                 forall e, err = Some e ->
                           snd r = Some e /\ Plot.file_writes ev = []) /\
    (Plot.file_writes ev = [] \/
     Plot.file_writes ev = [Plot.serialize_EOT Fixture.plot_world]) /\
    (Plot.file_writes ev = [Plot.serialize_EOT Fixture.plot_world] ->
       Z.of_nat (length (Plot.codec_writes ev)) = 2 ^ 2 /\
       Forall (fun a => snd a = None) (Plot.codec_write_results ev)) /\
    (snd r = None ->
     Plot.file_writes ev = [Plot.serialize_EOT Fixture.plot_world]).
Proof.
  apply (WriteFirstTable_prefix_then_sentinel Fixture.plot_world
           "plot"%string 2 54 Fixture.plot_id []).
  lia.
Defined.

Lemma WriteFirstTable_offsets_and_count_witness :
  exists r ev,
    Plot.WriteFirstTable Fixture.plot_world "plot"%string 2 54 Fixture.plot_id []
    = (Plot.Val r, [] ++ ev) /\
    Plot.sequential_writes "plot"%string 54 0 ev /\
    fst r = Plot.bytes_after 0 ev.
Proof.
  apply (WriteFirstTable_offsets_and_count Fixture.plot_world
           "plot"%string 2 54 Fixture.plot_id []).
  lia.
Defined.

Lemma table_step_empty_bucket_witness :
  exists fl ev,
    Plot.table_step (Fixture.world 0 [0; 1]) "plot"%string 2 2 0 100 6 tt
      Plot.initial_state []
    = (Plot.Val fl, [] ++ ev) /\
    Plot.codec_writes ev = [] /\
    match fl with
    | Plot.Next st' => Plot.written st' = Plot.written Plot.initial_state
    | Plot.Break st' => st' = Plot.initial_state
    | Plot.Return (w, Some _) => w = Plot.written Plot.initial_state
    | Plot.Return (_, None) => False
    end.
Proof.
  apply (table_step_empty_bucket (Fixture.world 0 [0; 1]) "plot"%string
           2 2 0 100 6 tt Plot.initial_state []).
  left. reflexivity.
Defined.

Lemma WritePlotFile_success_trace_witness :
  Plot.file_writes
    (snd (Plot.WritePlotFile Fixture.plot_world 10 "plot"%string 2 1000 []
            Fixture.plot_id []))
  = [] ++ Plot.header_fields 2 [] Fixture.plot_id
       ++ [Plot.serialize_EOT Fixture.plot_world] /\
  Plot.entered_tables
    (snd (Plot.WritePlotFile Fixture.plot_world 10 "plot"%string 2 1000 []
            Fixture.plot_id [])) = [] ++ [2] /\
  length (Plot.sorted_regions
            (snd (Plot.WritePlotFile Fixture.plot_world 10 "plot"%string 2 1000
                    [] Fixture.plot_id []))) = 1%nat /\
  (Plot.created
     (snd (Plot.WritePlotFile Fixture.plot_world 10 "plot"%string 2 1000 []
             Fixture.plot_id [])) = [] ++ ["plot"%string] \/
   Plot.created
     (snd (Plot.WritePlotFile Fixture.plot_world 10 "plot"%string 2 1000 []
             Fixture.plot_id []))
   = [] ++ ["plot"%string; ("plot" ++ "-spare")%string]).
Proof.
  apply (WritePlotFile_success_trace Fixture.plot_world 10 "plot"%string 2 1000
           [] Fixture.plot_id []).
  vm_compute. reflexivity.
Defined.

Lemma WritePlotFile_negative_k_witness :
  ((exists e,
      fst (Plot.WritePlotFile Fixture.plot_world 10 "plot"%string (-1) 1000 []
             Fixture.plot_id []) = Plot.Val (Some e)) \/
   fst (Plot.WritePlotFile Fixture.plot_world 10 "plot"%string (-1) 1000 []
          Fixture.plot_id []) = Plot.Panic "integer divide by zero") /\
  Plot.codec_writes
    (snd (Plot.WritePlotFile Fixture.plot_world 10 "plot"%string (-1) 1000 []
            Fixture.plot_id [])) = [] /\
  Plot.sorted_regions
    (snd (Plot.WritePlotFile Fixture.plot_world 10 "plot"%string (-1) 1000 []
            Fixture.plot_id [])) = [] /\
  Plot.entered_tables
    (snd (Plot.WritePlotFile Fixture.plot_world 10 "plot"%string (-1) 1000 []
            Fixture.plot_id [])) = [].
Proof.
  apply (WritePlotFile_negative_k Fixture.plot_world 10 "plot"%string (-1) 1000
           [] Fixture.plot_id []).
  lia.
Defined.

Lemma WritePlotFile_sort_arguments_witness :
  exists wrote h2 h3,
    Plot.afero_Create Fixture.plot_world [] "plot"%string = None /\
    Plot.WriteHeader Fixture.plot_world "plot"%string 2 [] Fixture.plot_id
      [Plot.Create "plot"%string None] = (Plot.Val (54, None), h2) /\
    Plot.WriteFirstTable Fixture.plot_world "plot"%string 2 54 Fixture.plot_id h2
    = (Plot.Val (wrote, None), h3) /\
    "plot"%string = "plot"%string /\ 1000 = 1000 /\ 2 = 2 /\
    4 = Plot.pow2_int Fixture.plot_world 2 /\
    78 = int_add wrote 54 /\
    6 = to_int (Z.quot wrote 4) /\
    None = (if wrote >? 1000 then Some ("plot" ++ "-spare")%string else None) /\
    Plot.created
      (snd (Plot.WritePlotFile Fixture.plot_world 10 "plot"%string 2 1000 []
              Fixture.plot_id []))
    = "plot"%string :: (if wrote >? 1000 then [("plot" ++ "-spare")%string] else []).
Proof.
  apply (WritePlotFile_sort_arguments Fixture.plot_world 10 "plot"%string 2 1000
           [] Fixture.plot_id "plot"%string None 54 78 1000 6 4 2 None).
  vm_compute. do 11 right. left. reflexivity.
Defined.
